(** * ShapeUnion: overlap test of composite hard particles (HPMC)

    A shallow embedding of [hoomd/hpmc/ShapeUnion.h]: the composite shape
    [ShapeUnion], its broad-phase filter [check_circumsphere_overlap], the
    leaf-against-leaf scan [test_narrow_phase_overlap], the stack-driven
    descent [query_node] and the dispatcher [test_overlap].

    The header is a template over the member shape and relies on
    [VectorMath.h], [OBB.h] and [GPUTree.h]; what it takes from them is an
    interface here (a class per collaborator), so every statement holds for
    any vector algebra, any bounding-box predicate, any member shape and
    any stored hierarchy.  Two instances run the definitions and the
    theorems on concrete bodies: a lattice instance (integer coordinates,
    bounding balls, spheres) and one on binary64 floating-point numbers,
    the header's [double]. *)

From Stdlib Require Import List Arith NArith ZArith Bool Lia Permutation.
From Stdlib Require PrimFloat.
Import ListNotations.

Set Implicit Arguments.

(** ** Collaborator interfaces *)

(** [vec3<Real>] and [quat<Real>] of VectorMath.h, as plain records. *)
Record vec3 (T : Type) : Type := mk_vec3 { vx : T; vy : T; vz : T }.
Record quat (T : Type) : Type := mk_quat { qs : T; qv : vec3 T }.

(** The arithmetic the header uses.  [Scalar] and [OverlapReal] are one
    type here: the casts between them are not modelled, and neither is
    rounding. *)
Class VectorMath : Type := {
  Scalar : Type;
  s_zero : Scalar;                          (* Scalar(0.0) *)
  s_four : Scalar;                          (* OverlapReal(4.0) *)
  s_add : Scalar -> Scalar -> Scalar;
  s_mul : Scalar -> Scalar -> Scalar;
  s_leb : Scalar -> Scalar -> bool;         (* operator<= *)
  s_eqb : Scalar -> Scalar -> bool;         (* operator== *)
  dot : vec3 Scalar -> vec3 Scalar -> Scalar;
  vsub : vec3 Scalar -> vec3 Scalar -> vec3 Scalar;   (* a - b *)
  vneg : vec3 Scalar -> vec3 Scalar;                  (* -a *)
  rotate : quat Scalar -> vec3 Scalar -> vec3 Scalar;
  conj : quat Scalar -> quat Scalar;
  qmul : quat Scalar -> quat Scalar -> quat Scalar;   (* a * b *)
  quat_default : quat Scalar                          (* quat<Scalar>() *)
}.

(** A member shape object: the orientation it was built with (and that
    the narrow phase may overwrite) and its parameter block. *)
Record ShapeObj (Q P : Type) : Type :=
  mk_shape { s_orientation : Q; s_params : P }.

(** The template parameter [Shape]: its parameter type, its
    [hasOrientation()] and its own [test_overlap], which receives the
    error counter by reference; the counter goes in and comes out. *)
Class MemberShape (VM : VectorMath) : Type := {
  mparam_type : Type;
  shape_hasOrientation : ShapeObj (quat Scalar) mparam_type -> bool;
  shape_test_overlap :
    vec3 Scalar -> ShapeObj (quat Scalar) mparam_type ->
    ShapeObj (quat Scalar) mparam_type -> N -> bool * N
}.

(** [detail::OBB] with [detail::overlap] and [OBB::affineTransform]. *)
Class BoundingBox (VM : VectorMath) : Type := {
  OBB : Type;
  obb_overlap : OBB -> OBB -> bool;
  affineTransform : OBB -> quat Scalar -> vec3 Scalar -> OBB
}.

(** [detail::GPUTree<capacity>], read only.  Node, leaf and member
    indices are [unsigned int] in the header; they are only compared and
    stepped by one below a bound, so they are natural numbers here.
    [advanceNode] returns the node the reference argument is moved to. *)
Record GPUTree (Box : Type) : Type := mk_tree {
  getNumNodes : nat;
  getNumLeaves : nat;
  getLeafNode : nat -> nat;
  getLeftChild : nat -> nat;
  advanceNode : nat -> bool -> nat;
  isLeaf : nat -> bool;
  getOBB : nat -> Box;
  getNumParticles : nat -> nat;
  getParticle : nat -> nat -> nat
}.

(** [ManagedArray<T>] is read by index only; it is its indexing function,
    and [N] says how many entries are members. *)
Record union_params (S P Box : Type) : Type := mk_params {
  tree : GPUTree Box;
  mpos : nat -> vec3 S;
  morientation : nat -> quat S;
  mparams : nat -> P;
  moverlap : nat -> N;
  diameter : S;
  N_members : nat;
  ignore : N
}.

Record ShapeUnion (S P Box : Type) : Type := mk_union {
  orientation : quat S;
  members : union_params S P Box
}.

(** What a run of the descent can end in.  The header has no check on
    the 64-entry stack: a write past it or a read below it is kept apart
    from a returned boolean, and so is a loop that has not ended when the
    fuel has. *)
Inductive outcome : Type :=
| Finished (b : bool)
| StackOverflow
| StackUnderflow
| OutOfFuel.

(** The stack of [query_node] is [unsigned int stack[64]]. *)
Definition stack_capacity : nat := 64.

(** [for (i = start; i < start + n; i++) if (f i) return true; return false;] *)
Fixpoint any_from (f : nat -> bool) (start n : nat) : bool :=
  match n with
  | 0 => false
  | S n' => if f start then true else any_from f (S start) n'
  end.

(** [for (k = start; k < start + n; k++) if (q k) return true; return false;]
    where [q] may fail to return. *)
Fixpoint leaf_loop (q : nat -> outcome) (start n : nat) : outcome :=
  match n with
  | 0 => Finished false
  | S n' =>
      match q start with
      | Finished true => Finished true
      | Finished false => leaf_loop q (S start) n'
      | o => o
      end
  end.

Section Union.
Context {VM : VectorMath} {MS : MemberShape VM} {BB : BoundingBox VM}.

Definition Shape : Type := ShapeObj (quat Scalar) mparam_type.
Definition union : Type := ShapeUnion Scalar mparam_type OBB.

(** ** ShapeUnion members *)

Definition hasOrientation (u : union) : bool :=
  if N_members (members u) =? 1 then
    let pos := mpos (members u) 0 in
    if s_eqb (vx pos) s_zero && s_eqb (vy pos) (vx pos)
       && s_eqb (vz pos) (vx pos)
    then shape_hasOrientation (mk_shape quat_default (mparams (members u) 0))
    else true
  else true.

Definition ignoreStatistics (u : union) : bool :=
  negb (N.eqb (ignore (members u)) 0).

Definition getCircumsphereDiameter (u : union) : Scalar :=
  diameter (members u).

(** ** Broad phase *)

Definition check_circumsphere_overlap
    (r_ab : vec3 Scalar) (a b : union) : bool :=
  let dr := r_ab in
  let rsq := dot dr dr in
  let DaDb := s_add (getCircumsphereDiameter a) (getCircumsphereDiameter b) in
  s_leb (s_mul rsq s_four) (s_mul DaDb DaDb).

(** ** Narrow phase *)

Definition test_narrow_phase_overlap
    (dr : vec3 Scalar) (a b : union) (cur_node_a cur_node_b : nat) : bool :=
  let r_ab := rotate (conj (orientation b)) dr in
  let na := getNumParticles (tree (members a)) cur_node_a in
  let nb := getNumParticles (tree (members b)) cur_node_b in
  any_from (fun i =>
    let ishape := getParticle (tree (members a)) cur_node_a i in
    let params_i := mparams (members a) ishape in
    let shape_i0 : Shape := mk_shape quat_default params_i in
    let shape_i : Shape :=
      if shape_hasOrientation shape_i0
      then mk_shape (qmul (qmul (conj (orientation b)) (orientation a))
                          (morientation (members a) ishape)) params_i
      else shape_i0 in
    let pos_i :=
      vsub (rotate (qmul (conj (orientation b)) (orientation a))
                   (mpos (members a) ishape)) r_ab in
    let overlap_i := moverlap (members a) ishape in
    any_from (fun j =>
      let jshape := getParticle (tree (members b)) cur_node_b j in
      let params_j := mparams (members b) jshape in
      let shape_j0 : Shape := mk_shape quat_default params_j in
      let shape_j : Shape :=
        if shape_hasOrientation shape_j0
        then mk_shape (morientation (members b) jshape) params_j
        else shape_j0 in
      let overlap_j := moverlap (members b) jshape in
      let err := 0%N in
      if negb (N.eqb (N.land overlap_i overlap_j) 0) then
        let r_ij := vsub (mpos (members b) jshape) pos_i in
        fst (shape_test_overlap r_ij shape_i shape_j err)
      else false) 0 nb) 0 na.

(** ** Descent of [b]'s hierarchy against one node of [a] *)

Section Descent.
Variables (tree_b : GPUTree OBB) (obb_a : OBB).
(** [narrow child] is [test_narrow_phase_overlap(dr, a, b, cur_node_a, child)]. *)
Variable narrow : nat -> bool.

Definition child_l_of (cur_node_b : nat) : nat :=
  getLeftChild tree_b cur_node_b.
Definition child_r_of (cur_node_b : nat) : nat :=
  advanceNode tree_b (child_l_of cur_node_b) true.
Definition overlap_with (child : nat) : bool :=
  obb_overlap obb_a (getOBB tree_b child).
Definition leaf_hit (child : nat) : bool :=
  overlap_with child && isLeaf tree_b child && narrow child.
Definition traverse (child : nat) : bool :=
  overlap_with child && negb (isLeaf tree_b child).

(** One pass through the body of the [do ... while]. *)
Inductive step_result : Type :=
| Hit                                      (* return true *)
| Next (cur_node_b : nat) (stack : list nat)
| PushOutOfBounds
| PopOutOfBounds.

(** The stack is the list of its live entries, top first;
    [stack_ptr - stack] is its length. *)
Definition query_step (cur_node_b : nat) (stack : list nat) : step_result :=
  let child_l := child_l_of cur_node_b in
  let child_r := child_r_of cur_node_b in
  if leaf_hit child_l then Hit
  else if leaf_hit child_r then Hit
  else
    let traverse_l := traverse child_l in
    let traverse_r := traverse child_r in
    if negb traverse_l && negb traverse_r then
      match stack with
      | [] => PopOutOfBounds
      | top :: rest => Next top rest                   (* pop *)
      end
    else
      let cur' := if traverse_l then child_l else child_r in
      if traverse_l && traverse_r then
        if stack_capacity <=? length stack then PushOutOfBounds
        else Next cur' (child_r :: stack)              (* push *)
      else Next cur' stack.

(** [do { ... } while (cur_node_b != tree_b.getNumNodes()); return false;] *)
Fixpoint query_loop (fuel cur_node_b : nat) (stack : list nat) : outcome :=
  match fuel with
  | 0 => OutOfFuel
  | S fuel' =>
      match query_step cur_node_b stack with
      | Hit => Finished true
      | PushOutOfBounds => StackOverflow
      | PopOutOfBounds => StackUnderflow
      | Next cur' stack' =>
          if cur' =? getNumNodes tree_b then Finished false
          else query_loop fuel' cur' stack'
      end
  end.
End Descent.

Definition query_node (fuel cur_node_a : nat) (r_ab : vec3 Scalar)
    (a b : union) : outcome :=
  let dr := r_ab in
  let cur_node_b := 0 in
  let stack := [getNumNodes (tree (members b))] in       (* push *)
  let obb_a :=
    affineTransform (getOBB (tree (members a)) cur_node_a)
      (qmul (conj (orientation b)) (orientation a))
      (rotate (conj (orientation b)) (vneg dr)) in
  let tree_b := tree (members b) in
  if getNumNodes tree_b =? 1 then
    Finished (obb_overlap obb_a (getOBB tree_b 0)
              && test_narrow_phase_overlap dr a b cur_node_a 0)
  else
    query_loop tree_b obb_a
      (fun child => test_narrow_phase_overlap dr a b cur_node_a child)
      fuel cur_node_b stack.

(** ** Dispatcher (host build: [offset = 0], [stride = 1]).  [err] is a
    reference parameter: the pair is what the call returns and what
    [err] holds afterwards. *)
Definition test_overlap (fuel : nat) (r_ab : vec3 Scalar) (a b : union)
    (err : N) : outcome * N :=
  let offset := 0 in
  if getNumLeaves (tree (members a)) <=? getNumLeaves (tree (members b)) then
    (leaf_loop (fun cur_leaf_a =>
                  let cur_node_a := getLeafNode (tree (members a)) cur_leaf_a in
                  query_node fuel cur_node_a r_ab a b)
               offset (getNumLeaves (tree (members a)) - offset),
     err)
  else
    (leaf_loop (fun cur_leaf_b =>
                  let cur_node_b := getLeafNode (tree (members b)) cur_leaf_b in
                  query_node fuel cur_node_b (vneg r_ab) b a)
               offset (getNumLeaves (tree (members b)) - offset),
     err).

End Union.


(** ** Reference descriptions

    The definitions below are not taken from the header: they say, in the
    words of the design document, what its functions are meant to compute,
    and the theorems compare them with the embedding above. *)

Section Reference.
Context {VM : VectorMath} {MS : MemberShape VM} {BB : BoundingBox VM}.

(** The offset in [b]'s local frame: [rotate(conj(q_b), r_ab)]. *)
Definition local_offset (r_ab : vec3 Scalar) (b : union) : vec3 Scalar :=
  rotate (conj (orientation b)) r_ab.

(** [conj(q_b) . q_a], the rotation from [a]'s frame into [b]'s. *)
Definition frame_change (a b : union) : quat Scalar :=
  qmul (conj (orientation b)) (orientation a).

(** Member [i] of [a] seen from [b]:
    [rotate(conj(q_b).q_a, memberPosition_a[i]) - r_ab']. *)
Definition effective_position (r_ab : vec3 Scalar) (a b : union) (i : nat)
    : vec3 Scalar :=
  vsub (rotate (frame_change a b) (mpos (members a) i)) (local_offset r_ab b).

(** Whether the member's kind is orientation dependent, asked of a shape
    object built with the default orientation. *)
Definition orientation_dependent (u : union) (i : nat) : bool :=
  shape_hasOrientation (mk_shape quat_default (mparams (members u) i)).

(** The transient shape object of member [i] of [a]: its orientation is
    [conj(q_b).q_a.memberOrientation_a[i]], computed only for an
    orientation-dependent kind. *)
Definition transient_shape_a (a b : union) (i : nat) : Shape :=
  mk_shape
    (if orientation_dependent a i
     then qmul (frame_change a b) (morientation (members a) i)
     else quat_default)
    (mparams (members a) i).

(** The transient shape object of member [j] of [b]: its stored
    orientation, again only for an orientation-dependent kind. *)
Definition transient_shape_b (b : union) (j : nat) : Shape :=
  mk_shape
    (if orientation_dependent b j
     then morientation (members b) j
     else quat_default)
    (mparams (members b) j).

(** [memberMask[i] & memberMask[j] != 0]. *)
Definition masks_meet (a b : union) (i j : nat) : bool :=
  negb (N.eqb (N.land (moverlap (members a) i) (moverlap (members b) j)) 0).

(** The primitive test of one member pair, with the relative vector
    [memberPosition_b[j] - effectivePosition_i]; a pair whose masks do not
    meet is skipped. *)
Definition pair_overlap (r_ab : vec3 Scalar) (a b : union) (i j : nat) : bool :=
  masks_meet a b i j
  && fst (shape_test_overlap
            (vsub (mpos (members b) j) (effective_position r_ab a b i))
            (transient_shape_a a b i) (transient_shape_b b j) 0%N).

(** The member indices grouped at a node, in stored order. *)
Definition leaf_members (T : GPUTree OBB) (node : nat) : list nat :=
  map (getParticle T node) (seq 0 (getNumParticles T node)).

(** Narrow phase: some pair of the two leaves overlaps. *)
Definition narrow_phase_spec (r_ab : vec3 Scalar) (a b : union)
    (node_a node_b : nat) : bool :=
  existsb (fun ij => pair_overlap r_ab a b (fst ij) (snd ij))
    (list_prod (leaf_members (tree (members a)) node_a)
               (leaf_members (tree (members b)) node_b)).

(** The exhaustive, unpruned scan of all member pairs. *)
Definition all_pairs_scan (r_ab : vec3 Scalar) (a b : union) : bool :=
  existsb (fun ij => pair_overlap r_ab a b (fst ij) (snd ij))
    (list_prod (seq 0 (N_members (members a))) (seq 0 (N_members (members b)))).

(** A hierarchy that is one leaf node holding every member once. *)
Definition single_leaf (u : union) : Prop :=
  getNumNodes (tree (members u)) = 1
  /\ getNumLeaves (tree (members u)) = 1
  /\ getLeafNode (tree (members u)) 0 = 0
  /\ Permutation (leaf_members (tree (members u)) 0)
                 (seq 0 (N_members (members u))).

(** The box of node [node_a] of [a], moved into [b]'s frame. *)
Definition box_in_frame_of (r_ab : vec3 Scalar) (a b : union) (node_a : nat)
    : OBB :=
  affineTransform (getOBB (tree (members a)) node_a)
    (frame_change a b) (rotate (conj (orientation b)) (vneg r_ab)).

(** Dispatcher: the side with fewer leaves drives, [a] on a tie. *)
Definition a_drives (a b : union) : bool :=
  getNumLeaves (tree (members a)) <=? getNumLeaves (tree (members b)).

Definition driving_leaves (a b : union) : nat :=
  if a_drives a b then getNumLeaves (tree (members a))
  else getNumLeaves (tree (members b)).

(** The traversal run for leaf [k] of the driving side, against the other
    hierarchy; the offset is negated when [b] drives. *)
Definition leaf_traversal (fuel : nat) (r_ab : vec3 Scalar) (a b : union)
    (k : nat) : outcome :=
  if a_drives a b
  then query_node fuel (getLeafNode (tree (members a)) k) r_ab a b
  else query_node fuel (getLeafNode (tree (members b)) k) (vneg r_ab) b a.

Definition returns_true (o : outcome) : bool :=
  match o with Finished true => true | _ => false end.

(** Every member of [a] against every member of [b] has masks whose
    bitwise AND is zero. *)
Definition masks_disjoint (a b : union) : Prop :=
  forall i j, i < N_members (members a) -> j < N_members (members b) ->
    N.land (moverlap (members a) i) (moverlap (members b) j) = 0%N.

(** The member indices stored at the nodes are members. *)
Definition members_in_range (u : union) : Prop :=
  forall node k, k < getNumParticles (tree (members u)) node ->
    getParticle (tree (members u)) node k < N_members (members u).

(** A position that compares equal to the origin, coordinate by
    coordinate. *)
Definition at_origin (pos : vec3 Scalar) : bool :=
  s_eqb (vx pos) s_zero && s_eqb (vy pos) s_zero && s_eqb (vz pos) s_zero.

End Reference.

(** *** The shape of a stored hierarchy

    The header reaches the nodes through [getLeftChild], [advanceNode] and
    [isLeaf] only.  A [btree] is the finite binary tree those accessors
    unfold to below a node; its height is the depth the stack bound talks
    about. *)
Inductive btree : Type :=
| BLeaf (id : nat)
| BNode (id : nat) (l r : btree).

Definition node_id (t : btree) : nat :=
  match t with BLeaf id => id | BNode id _ _ => id end.

Definition is_internal (t : btree) : bool :=
  match t with BLeaf _ => false | BNode _ _ _ => true end.

(** Edges on the longest path from the root to a leaf. *)
Fixpoint height (t : btree) : nat :=
  match t with
  | BLeaf _ => 0
  | BNode _ l r => S (Nat.max (height l) (height r))
  end.

Fixpoint internal_nodes (t : btree) : nat :=
  match t with
  | BLeaf _ => 0
  | BNode _ l r => S (internal_nodes l + internal_nodes r)
  end.

(** The leaves under a node, left to right, and all nodes under it. *)
Fixpoint leaves_of (t : btree) : list nat :=
  match t with
  | BLeaf id => [id]
  | BNode _ l r => leaves_of l ++ leaves_of r
  end.

Fixpoint nodes_of (t : btree) : list nat :=
  match t with
  | BLeaf id => [id]
  | BNode id l r => id :: nodes_of l ++ nodes_of r
  end.

(** [unfolds T t]: the accessors of [T] describe [t], node by node. *)
Fixpoint unfolds (Box : Type) (T : GPUTree Box) (t : btree) : Prop :=
  match t with
  | BLeaf id => isLeaf T id = true
  | BNode id l r =>
      isLeaf T id = false
      /\ getLeftChild T id = node_id l
      /\ advanceNode T (node_id l) true = node_id r
      /\ unfolds T l /\ unfolds T r
  end.

(** [t] is the whole hierarchy [T], rooted at node 0; a hierarchy of one
    node is a single leaf, any other has an internal root. *)
Definition hierarchy (Box : Type) (T : GPUTree Box) (t : btree) : Prop :=
  node_id t = 0 /\ unfolds T t
  /\ (is_internal t = false -> getNumNodes T = 1).

(** A hierarchy as its builder leaves it: the node identifiers are below
    the node count (so none is the sentinel), one node means a single
    leaf, and the leaves listed by index are the leaves of the tree. *)
Definition sound_hierarchy (Box : Type) (T : GPUTree Box) (t : btree) : Prop :=
  hierarchy T t
  /\ (getNumNodes T = 1 -> is_internal t = false)
  /\ (forall id, In id (nodes_of t) -> id < getNumNodes T)
  /\ Permutation (map (getLeafNode T) (seq 0 (getNumLeaves T))) (leaves_of t).

Section DescentReference.
Context {VM : VectorMath} {BB : BoundingBox VM}.
Variables (tree_b : GPUTree OBB) (obb_a : OBB) (narrow : nat -> bool).

(** The rule of the loop, written over the accessors of the hierarchy and
    the box test themselves.  The two children of the current node are
    its left child and the sibling of that child, the node [advanceNode]
    skips to from it. *)
Local Abbreviation left_of cur := (getLeftChild tree_b cur).
Local Abbreviation right_of cur :=
  (advanceNode tree_b (getLeftChild tree_b cur) true).

(** A child qualifies for traversal when its box overlaps the box of
    [a]'s node and it is internal. *)
Definition qualifies (child : nat) : Prop :=
  obb_overlap obb_a (getOBB tree_b child) = true
  /\ isLeaf tree_b child = false.

(** A child ends the search when its box overlaps, it is a leaf, and the
    narrow phase on it is positive. *)
Definition positive_leaf (child : nat) : Prop :=
  obb_overlap obb_a (getOBB tree_b child) = true
  /\ isLeaf tree_b child = true
  /\ narrow child = true.

(** The transition rule: pop when neither child qualifies, descend when
    exactly one does, descend left and push the right child when both
    do; the stack has 64 entries. *)
Inductive transition (cur : nat) (stack : list nat)
  : nat -> list nat -> Prop :=
| T_pop top rest :
    ~ qualifies (left_of cur) -> ~ qualifies (right_of cur) ->
    stack = top :: rest ->
    transition cur stack top rest
| T_descend_left :
    qualifies (left_of cur) -> ~ qualifies (right_of cur) ->
    transition cur stack (left_of cur) stack
| T_descend_right :
    ~ qualifies (left_of cur) -> qualifies (right_of cur) ->
    transition cur stack (right_of cur) stack
| T_descend_push :
    qualifies (left_of cur) -> qualifies (right_of cur) ->
    length stack < 64 ->
    transition cur stack (left_of cur) (right_of cur :: stack).

(** The loop as a relation: it returns true as soon as one of the two
    children is a positive leaf, and false when a transition makes the
    sentinel, the node count of the hierarchy, the current node. *)
Inductive loop_returns : nat -> list nat -> bool -> Prop :=
| L_hit cur stack :
    positive_leaf (left_of cur) \/ positive_leaf (right_of cur) ->
    loop_returns cur stack true
| L_sentinel cur stack stack' :
    ~ positive_leaf (left_of cur) -> ~ positive_leaf (right_of cur) ->
    transition cur stack (getNumNodes tree_b) stack' ->
    loop_returns cur stack false
| L_iterate cur stack cur' stack' b :
    ~ positive_leaf (left_of cur) -> ~ positive_leaf (right_of cur) ->
    transition cur stack cur' stack' ->
    cur' <> getNumNodes tree_b ->
    loop_returns cur' stack' b ->
    loop_returns cur stack b.

(** What the loop does once the subtree under the current node is
    exhausted: it pops. *)
Definition resume (fuel : nat) (stack : list nat) : outcome :=
  match stack with
  | [] => StackUnderflow
  | top :: rest =>
      if top =? getNumNodes tree_b then Finished false
      else query_loop tree_b obb_a narrow fuel top rest
  end.

(** What a descent is meant to find.  [visit t]: the box of [t] overlaps
    and, below it, a leaf is reached whose narrow-phase test is positive.
    [below t] starts at the children of [t], whose own box is not tested;
    [reached t] is the answer for a whole hierarchy, where only a
    hierarchy of one node has its root box tested. *)
Fixpoint visit (t : btree) : bool :=
  overlap_with tree_b obb_a (node_id t)
  && match t with
     | BLeaf id => narrow id
     | BNode _ l r => visit l || visit r
     end.

Definition below (t : btree) : bool :=
  match t with
  | BLeaf _ => false
  | BNode _ l r => visit l || visit r
  end.

Definition reached (t : btree) : bool :=
  if is_internal t then below t else visit t.

(** The same question asked of the leaves alone, with no pruning. *)
Definition flat_scan (t : btree) : bool :=
  existsb (fun leaf => overlap_with tree_b obb_a leaf && narrow leaf)
          (leaves_of t).

(** The boxes are nested as far as the test against [obb_a] can see: a
    box that does not overlap has no overlapping leaf box under it. *)
Fixpoint nested (t : btree) : Prop :=
  match t with
  | BLeaf _ => True
  | BNode id l r =>
      (overlap_with tree_b obb_a id = false ->
       forall leaf, In leaf (leaves_of t) ->
         overlap_with tree_b obb_a leaf = false)
      /\ nested l /\ nested r
  end.

End DescentReference.

Section ExchangeReference.
Context {VM : VectorMath} {MS : MemberShape VM} {BB : BoundingBox VM}.



(** The boxes of [b] are nested for the box of every leaf of [a]. *)
Definition boxes_nested (r_ab : vec3 Scalar) (a b : union) (ta tb : btree)
    : Prop :=
  forall leaf_a, In leaf_a (leaves_of ta) ->
    nested (tree (members b)) (box_in_frame_of r_ab a b leaf_a) tb.

(** All leaf pairs: the boxes overlap and the narrow phase is positive. *)
Definition leaf_pairs_scan (r_ab : vec3 Scalar) (a b : union) (ta tb : btree)
    : bool :=
  existsb (fun leaf_a =>
     existsb (fun leaf_b =>
        obb_overlap (box_in_frame_of r_ab a b leaf_a)
                    (getOBB (tree (members b)) leaf_b)
        && test_narrow_phase_overlap r_ab a b leaf_a leaf_b)
       (leaves_of tb))
    (leaves_of ta).

End ExchangeReference.

Section CoverReference.
Context {VM : VectorMath} {MS : MemberShape VM} {BB : BoundingBox VM}.

(** The path of left children from the root: node 0, its left child, the
    left child of that one, and so on. *)
Fixpoint left_spine (T : GPUTree OBB) (k : nat) : nat :=
  match k with
  | 0 => 0
  | S k' => getLeftChild T (left_spine T k')
  end.

(** The first [depth] nodes of the left spine each have two internal
    children whose boxes overlap [obb_a], and no left child is numbered
    like the sentinel. *)
Definition deep_left_spine (T : GPUTree OBB) (obb_a : OBB) (depth : nat)
    : Prop :=
  forall k, k < depth ->
    traverse T obb_a (child_l_of T (left_spine T k)) = true
    /\ traverse T obb_a (child_r_of T (left_spine T k)) = true
    /\ child_l_of T (left_spine T k) <> getNumNodes T.

(** The boxes bound what is under them, as far as [obb_a] and the
    narrow-phase test can tell: where a box does not overlap, no leaf
    under it has a positive narrow-phase test. *)
Fixpoint bounding (T : GPUTree OBB) (obb_a : OBB) (narrow : nat -> bool)
    (t : btree) : Prop :=
  match t with
  | BLeaf id => overlap_with T obb_a id = false -> narrow id = false
  | BNode id l r =>
      (overlap_with T obb_a id = false ->
       forall leaf, In leaf (leaves_of t) -> narrow leaf = false)
      /\ bounding T obb_a narrow l /\ bounding T obb_a narrow r
  end.

(** The boxes of [b] bound its members against every leaf of [a]. *)
Definition boxes_bound (r_ab : vec3 Scalar) (a b : union) (ta tb : btree)
    : Prop :=
  forall leaf_a, In leaf_a (leaves_of ta) ->
    bounding (tree (members b)) (box_in_frame_of r_ab a b leaf_a)
      (fun child => test_narrow_phase_overlap r_ab a b leaf_a child) tb.

(** The member lists of the leaves, put end to end, hold every member
    once. *)
Definition leaves_partition (u : union) (t : btree) : Prop :=
  Permutation (flat_map (leaf_members (tree (members u))) (leaves_of t))
              (seq 0 (N_members (members u))).

(** The null vector. *)
Definition vzero : vec3 Scalar := mk_vec3 s_zero s_zero s_zero.

End CoverReference.


(** ** A lattice instance

    Integer coordinates, quaternions with integer components (the
    identity and the half turns are unit quaternions among them), balls as
    bounding volumes and spheres as members.  It instantiates every
    interface above, so the embedding runs on concrete bodies. *)

Module Lattice.
Local Open Scope Z_scope.

Definition zadd (a b : vec3 Z) : vec3 Z :=
  mk_vec3 (vx a + vx b) (vy a + vy b) (vz a + vz b).
Definition zsub (a b : vec3 Z) : vec3 Z :=
  mk_vec3 (vx a - vx b) (vy a - vy b) (vz a - vz b).
Definition zneg (a : vec3 Z) : vec3 Z :=
  mk_vec3 (- vx a) (- vy a) (- vz a).
Definition zscale (k : Z) (a : vec3 Z) : vec3 Z :=
  mk_vec3 (k * vx a) (k * vy a) (k * vz a).
Definition zdot (a b : vec3 Z) : Z :=
  vx a * vx b + vy a * vy b + vz a * vz b.
Definition zcross (a b : vec3 Z) : vec3 Z :=
  mk_vec3 (vy a * vz b - vz a * vy b)
          (vz a * vx b - vx a * vz b)
          (vx a * vy b - vy a * vx b).

Definition zconj (q : quat Z) : quat Z := mk_quat (qs q) (zneg (qv q)).

Definition zqmul (a b : quat Z) : quat Z :=
  mk_quat (qs a * qs b - zdot (qv a) (qv b))
          (zadd (zadd (zscale (qs a) (qv b)) (zscale (qs b) (qv a)))
                (zcross (qv a) (qv b))).

(** [q v q*] written out for a quaternion [q = (s, u)]. *)
Definition zrotate (q : quat Z) (v : vec3 Z) : vec3 Z :=
  zadd (zadd (zscale (qs q * qs q - zdot (qv q) (qv q)) v)
             (zscale (2 * qs q) (zcross (qv q) v)))
       (zscale (2 * zdot (qv q) v) (qv q)).

Definition origin : vec3 Z := mk_vec3 0 0 0.
Definition q_id : quat Z := mk_quat 1 origin.
(** The half turn about the z axis. *)
Definition q_half_z : quat Z := mk_quat 0 (mk_vec3 0 0 1).

Definition lattice : VectorMath :=
  {| Scalar := Z; s_zero := 0; s_four := 4;
     s_add := Z.add; s_mul := Z.mul; s_leb := Z.leb; s_eqb := Z.eqb;
     dot := zdot; vsub := zsub; vneg := zneg;
     rotate := zrotate; conj := zconj; qmul := zqmul;
     quat_default := q_id |}.

(** Bounding balls stand in for the boxes. *)
Record ball : Type := mk_ball { centre : vec3 Z; radius : Z }.

Definition ball_overlap (A B : ball) : bool :=
  let d := zsub (centre B) (centre A) in
  zdot d d <=? (radius A + radius B) * (radius A + radius B).

Definition ball_transform (A : ball) (q : quat Z) (t : vec3 Z) : ball :=
  mk_ball (zadd (zrotate q (centre A)) t) (radius A).

Definition ball_box : BoundingBox lattice :=
  @Build_BoundingBox lattice ball ball_overlap ball_transform.

(** Spheres, given by their radius.  Two spheres overlap when their
    centres are closer than the sum of the radii; exact contact is
    reported as a degenerate configuration through the counter. *)
Definition sphere_test (r : vec3 Z) (s1 s2 : ShapeObj (quat Z) Z) (err : N)
    : bool * N :=
  let reach := (s_params s1 + s_params s2) * (s_params s1 + s_params s2) in
  (zdot r r <? reach, if zdot r r =? reach then N.succ err else err).

Definition sphere_kind : MemberShape lattice :=
  @Build_MemberShape lattice Z (fun _ => false) sphere_test.

(** A hierarchy of one node: the root is the only leaf and holds member 0. *)
Definition one_node_tree (box : ball) : GPUTree ball :=
  {| getNumNodes := 1; getNumLeaves := 1;
     getLeafNode := fun _ => 0%nat;
     getLeftChild := fun _ => 1%nat;
     advanceNode := fun n _ => S n;
     isLeaf := fun _ => true;
     getOBB := fun _ => box;
     getNumParticles := fun _ => 1%nat;
     getParticle := fun _ _ => 0%nat |}.

(** A hierarchy of three nodes: root 0 with the leaves 1 and 2, holding
    member 0 and member 1. *)
Definition three_node_tree (root left right : ball) : GPUTree ball :=
  {| getNumNodes := 3; getNumLeaves := 2;
     getLeafNode := fun k => S k;
     getLeftChild := fun n => match n with O => 1%nat | _ => 3%nat end;
     advanceNode := fun n _ => S n;
     isLeaf := fun n => match n with O => false | _ => true end;
     getOBB := fun n =>
       match n with O => root | S O => left | _ => right end;
     getNumParticles := fun n =>
       match n with 1%nat | 2%nat => 1%nat | _ => 0%nat end;
     getParticle := fun n _ => Nat.pred n |}.

(** One sphere of radius [R] at the body's centre, in a box of radius
    [box_radius]. *)
Definition lone_sphere (R box_radius : Z) (mask : N) (q : quat Z)
    : ShapeUnion Z Z ball :=
  mk_union q
    {| tree := one_node_tree (mk_ball origin box_radius);
       mpos := fun _ => origin;
       morientation := fun _ => q_id;
       mparams := fun _ => R;
       moverlap := fun _ => mask;
       diameter := 2 * R;
       N_members := 1;
       ignore := 0%N |}.

(** Two spheres of radius [R], at the centre and at distance [d] along
    the local x axis. *)
Definition dumbbell (d R : Z) (mask : N) (q : quat Z) : ShapeUnion Z Z ball :=
  mk_union q
    {| tree := three_node_tree (mk_ball origin (d + R))
                               (mk_ball origin R)
                               (mk_ball (mk_vec3 d 0 0) R);
       mpos := fun i => match i with O => origin | _ => mk_vec3 d 0 0 end;
       morientation := fun _ => q_id;
       mparams := fun _ => R;
       moverlap := fun _ => mask;
       diameter := 2 * (d + R);
       N_members := 2;
       ignore := 0%N |}.

(** The three-node hierarchy as a tree. *)
Definition dumbbell_shape : btree := BNode 0 (BLeaf 1) (BLeaf 2).

(** A hierarchy deeper than the stack: every node is internal, node [n]
    has the children [n + 2] and [n + 3], and all boxes are the same. *)
Definition bottomless_tree : GPUTree ball :=
  {| getNumNodes := 1000; getNumLeaves := 1;
     getLeafNode := fun _ => 0%nat;
     getLeftChild := fun n => (n + 2)%nat;
     advanceNode := fun n _ => S n;
     isLeaf := fun _ => false;
     getOBB := fun _ => mk_ball origin 1;
     getNumParticles := fun _ => 0%nat;
     getParticle := fun _ _ => 0%nat |}.

Definition bottomless : ShapeUnion Z Z ball :=
  mk_union q_id
    {| tree := bottomless_tree;
       mpos := fun _ => origin;
       morientation := fun _ => q_id;
       mparams := fun _ => 1;
       moverlap := fun _ => 1%N;
       diameter := 2;
       N_members := 1;
       ignore := 0%N |}.

(** A body with no member and an empty hierarchy, as the default
    constructor of the parameters leaves it. *)
Definition hollow : ShapeUnion Z Z ball :=
  mk_union q_id
    {| tree := {| getNumNodes := 0; getNumLeaves := 0;
                  getLeafNode := fun _ => 0%nat;
                  getLeftChild := fun _ => 0%nat;
                  advanceNode := fun n _ => n;
                  isLeaf := fun _ => true;
                  getOBB := fun _ => mk_ball origin 0;
                  getNumParticles := fun _ => 0%nat;
                  getParticle := fun _ _ => 0%nat |};
       mpos := fun _ => origin;
       morientation := fun _ => q_id;
       mparams := fun _ => 0;
       moverlap := fun _ => 0%N;
       diameter := 0;
       N_members := 0;
       ignore := 0%N |}.

End Lattice.

(** ** A floating-point instance

    The scalar type is binary64, with its own [+], [*], [<=] and [==]:
    [<=] is false on a NaN and [==] does not tell the two zeros apart,
    as in the header's arithmetic.  Bounding balls and spheres again. *)

Module Doubles.
Import PrimFloat.
Local Open Scope float_scope.

Definition fadd3 (a b : vec3 float) : vec3 float :=
  mk_vec3 (vx a + vx b) (vy a + vy b) (vz a + vz b).
Definition fsub3 (a b : vec3 float) : vec3 float :=
  mk_vec3 (vx a - vx b) (vy a - vy b) (vz a - vz b).
Definition fneg3 (a : vec3 float) : vec3 float :=
  mk_vec3 (- vx a) (- vy a) (- vz a).
Definition fscale (k : float) (a : vec3 float) : vec3 float :=
  mk_vec3 (k * vx a) (k * vy a) (k * vz a).
Definition fdot (a b : vec3 float) : float :=
  vx a * vx b + vy a * vy b + vz a * vz b.
Definition fcross (a b : vec3 float) : vec3 float :=
  mk_vec3 (vy a * vz b - vz a * vy b)
          (vz a * vx b - vx a * vz b)
          (vx a * vy b - vy a * vx b).

Definition fconj (q : quat float) : quat float := mk_quat (qs q) (fneg3 (qv q)).

Definition fqmul (a b : quat float) : quat float :=
  mk_quat (qs a * qs b - fdot (qv a) (qv b))
          (fadd3 (fadd3 (fscale (qs a) (qv b)) (fscale (qs b) (qv a)))
                 (fcross (qv a) (qv b))).

Definition frotate (q : quat float) (v : vec3 float) : vec3 float :=
  fadd3 (fadd3 (fscale (qs q * qs q - fdot (qv q) (qv q)) v)
               (fscale (2 * qs q) (fcross (qv q) v)))
        (fscale (2 * fdot (qv q) v) (qv q)).

Definition f_origin : vec3 float := mk_vec3 0 0 0.
Definition fq_id : quat float := mk_quat 1 f_origin.

Definition doubles : VectorMath :=
  {| Scalar := float; s_zero := 0; s_four := 4;
     s_add := add; s_mul := mul; s_leb := leb; s_eqb := eqb;
     dot := fdot; vsub := fsub3; vneg := fneg3;
     rotate := frotate; conj := fconj; qmul := fqmul;
     quat_default := fq_id |}.

Record fball : Type := mk_fball { fcentre : vec3 float; fradius : float }.

Definition fball_overlap (A B : fball) : bool :=
  let d := fsub3 (fcentre B) (fcentre A) in
  fdot d d <=? (fradius A + fradius B) * (fradius A + fradius B).

Definition fball_transform (A : fball) (q : quat float) (t : vec3 float)
    : fball :=
  mk_fball (fadd3 (frotate q (fcentre A)) t) (fradius A).

Definition fball_box : BoundingBox doubles :=
  @Build_BoundingBox doubles fball fball_overlap fball_transform.

Definition fsphere_test (r : vec3 float) (s1 s2 : ShapeObj (quat float) float)
    (err : N) : bool * N :=
  let reach := (s_params s1 + s_params s2) * (s_params s1 + s_params s2) in
  (fdot r r <? reach, if fdot r r =? reach then N.succ err else err).

Definition fsphere_kind : MemberShape doubles :=
  @Build_MemberShape doubles float (fun _ => false) fsphere_test.

(** One sphere of radius [R] at the local position [pos], in a hierarchy
    of one node whose box is the sphere; [D] is the diameter of the
    body's circumsphere. *)
Definition sphere_at (pos : vec3 float) (R D : float) (q : quat float)
    : ShapeUnion float float fball :=
  mk_union q
    {| tree := {| getNumNodes := 1; getNumLeaves := 1;
                  getLeafNode := fun _ => 0%nat;
                  getLeftChild := fun _ => 1%nat;
                  advanceNode := fun n _ => S n;
                  isLeaf := fun _ => true;
                  getOBB := fun _ => mk_fball pos R;
                  getNumParticles := fun _ => 1%nat;
                  getParticle := fun _ _ => 0%nat |};
       mpos := fun _ => pos;
       morientation := fun _ => fq_id;
       mparams := fun _ => R;
       moverlap := fun _ => 1%N;
       diameter := D;
       N_members := 1;
       ignore := 0%N |}.

(** The zero with the sign bit set. *)
Definition minus_zero : float := - 0.

End Doubles.


(** * Properties *)

Unset Implicit Arguments.

(** ** Loops with an early return *)

Lemma any_from_existsb (f : nat -> bool) (start n : nat) :
  any_from f start n = existsb f (seq start n).
Proof.
  revert start; induction n as [|n IH]; intros start; simpl.
  - reflexivity.
  - rewrite IH. destruct (f start); reflexivity.
Qed.

Lemma existsb_ext_in (A : Type) (f g : A -> bool) (l : list A) :
  (forall x, In x l -> f x = g x) -> existsb f l = existsb g l.
Proof.
  induction l as [|x l IH]; intros H; simpl.
  - reflexivity.
  - rewrite (H x (or_introl eq_refl)), IH; [reflexivity|].
    intros y Hy. apply H. right. exact Hy.
Qed.

Lemma existsb_through_map (A B : Type) (g : A -> B) (f : B -> bool) (l : list A) :
  existsb f (map g l) = existsb (fun x => f (g x)) l.
Proof.
  induction l as [|x l IH]; simpl; [reflexivity | now rewrite IH].
Qed.

Lemma existsb_list_prod (A B : Type) (f : A * B -> bool) (la : list A) (lb : list B) :
  existsb f (list_prod la lb)
  = existsb (fun i => existsb (fun j => f (i, j)) lb) la.
Proof.
  induction la as [|i la IH]; simpl.
  - reflexivity.
  - rewrite existsb_app, IH, existsb_through_map. reflexivity.
Qed.

Lemma existsb_Permutation (A : Type) (f : A -> bool) (l l' : list A) :
  Permutation l l' -> existsb f l = existsb f l'.
Proof.
  induction 1 as [|x l l' _ IH|x y l|l l' l'' _ IH1 _ IH2]; simpl.
  - reflexivity.
  - now rewrite IH.
  - destruct (f x), (f y); reflexivity.
  - now rewrite IH1.
Qed.

Lemma existsb_false_in (A : Type) (f : A -> bool) (l : list A) :
  (forall x, In x l -> f x = false) -> existsb f l = false.
Proof.
  induction l as [|x l IH]; intros H; simpl; [reflexivity|].
  rewrite (H x (or_introl eq_refl)). apply IH.
  intros y Hy. apply H. now right.
Qed.

Lemma existsb_swap (A B : Type) (f : A -> B -> bool) (la : list A) (lb : list B) :
  existsb (fun x => existsb (fun y => f x y) lb) la
  = existsb (fun y => existsb (fun x => f x y) la) lb.
Proof.
  apply eq_iff_eq_true. rewrite !existsb_exists. split.
  - intros [x [Hx H]]. apply existsb_exists in H. destruct H as [y [Hy H]].
    exists y. split; [exact Hy|]. apply existsb_exists. now exists x.
  - intros [y [Hy H]]. apply existsb_exists in H. destruct H as [x [Hx H]].
    exists x. split; [exact Hx|]. apply existsb_exists. now exists y.
Qed.

(** The leaf loop, when every traversal returns: a disjunction. *)
Lemma leaf_loop_all_finished (q : nat -> outcome) (start n : nat) :
  (forall k, start <= k < start + n -> exists res, q k = Finished res) ->
  leaf_loop q start n
  = Finished (existsb (fun k => returns_true (q k)) (seq start n)).
Proof.
  revert start; induction n as [|n IH]; intros start H; simpl.
  - reflexivity.
  - destruct (H start ltac:(lia)) as [res Hres]. rewrite Hres.
    destruct res; simpl; [reflexivity|].
    apply IH. intros k Hk. apply H. lia.
Qed.

Section UnionFacts.
Context {VM : VectorMath} {MS : MemberShape VM} {BB : BoundingBox VM}.

(** ** Broad phase *)

(** C3.  [check_circumsphere_overlap] answers the comparison
    [|r_ab|^2 * 4 <= (D_a + D_b)^2], with the scalar type's own [*], [+]
    and [<=], on the offset and the two stored diameters; it reads
    nothing else of the two instances, so instances with the same
    diameters get the same answer; and, the comparison being non-strict,
    it answers true at exact tangency, where the two compared values are
    the same and that value compares [<=] to itself (as every value of a
    floating-point type does, except a NaN). *)
Theorem check_circumsphere_overlap_rule
    (r_ab : vec3 Scalar) (a b : union) :
  check_circumsphere_overlap r_ab a b
    = s_leb (s_mul (dot r_ab r_ab) s_four)
            (s_mul (s_add (diameter (members a)) (diameter (members b)))
                   (s_add (diameter (members a)) (diameter (members b))))
  /\ (forall a' b' : union,
        diameter (members a') = diameter (members a) ->
        diameter (members b') = diameter (members b) ->
        check_circumsphere_overlap r_ab a' b'
        = check_circumsphere_overlap r_ab a b)
  /\ (s_mul (dot r_ab r_ab) s_four
      = s_mul (s_add (diameter (members a)) (diameter (members b)))
              (s_add (diameter (members a)) (diameter (members b))) ->
      s_leb (s_mul (dot r_ab r_ab) s_four) (s_mul (dot r_ab r_ab) s_four)
      = true ->
      check_circumsphere_overlap r_ab a b = true).
Proof.
  unfold check_circumsphere_overlap, getCircumsphereDiameter.
  split; [reflexivity|]. split.
  - intros a' b' Ha Hb. rewrite Ha, Hb. reflexivity.
  - intros Htangent Hrefl. rewrite <- Htangent. exact Hrefl.
Qed.

(** ** Orientation query *)

(** C10.  [hasOrientation] hands back the member's own flag only for a
    composite of exactly one member that sits at the origin; with another
    member count, or with the single member off the origin, it is true
    whatever the member's flag.  Being at the origin is decided by the
    scalar type's [==], as [x == 0], [y == x] and [z == x]; where [==]
    lets a value equal to zero stand for zero in a comparison (as it does
    on a floating-point type, for both signed zeros), this is the
    comparison of each coordinate with zero. *)
Theorem hasOrientation_cases (u : union) :
  (N_members (members u) = 1 ->
   s_eqb (vx (mpos (members u) 0)) s_zero = true ->
   s_eqb (vy (mpos (members u) 0)) (vx (mpos (members u) 0)) = true ->
   s_eqb (vz (mpos (members u) 0)) (vx (mpos (members u) 0)) = true ->
   hasOrientation u
   = shape_hasOrientation (mk_shape quat_default (mparams (members u) 0)))
  /\ (N_members (members u) <> 1 -> hasOrientation u = true)
  /\ (s_eqb (vx (mpos (members u) 0)) s_zero = false
      \/ s_eqb (vy (mpos (members u) 0)) (vx (mpos (members u) 0)) = false
      \/ s_eqb (vz (mpos (members u) 0)) (vx (mpos (members u) 0)) = false ->
      hasOrientation u = true)
  /\ ((s_eqb (vx (mpos (members u) 0)) s_zero = true ->
       s_eqb (vy (mpos (members u) 0)) (vx (mpos (members u) 0))
       = s_eqb (vy (mpos (members u) 0)) s_zero
       /\ s_eqb (vz (mpos (members u) 0)) (vx (mpos (members u) 0))
          = s_eqb (vz (mpos (members u) 0)) s_zero) ->
      (N_members (members u) = 1 ->
       at_origin (mpos (members u) 0) = true ->
       hasOrientation u
       = shape_hasOrientation (mk_shape quat_default (mparams (members u) 0)))
      /\ (at_origin (mpos (members u) 0) = false ->
          hasOrientation u = true)).
Proof.
  unfold hasOrientation, at_origin.
  destruct (mpos (members u) 0) as [px py pz]. cbn [vx vy vz].
  split; [|split; [|split]].
  - intros HN Ex Ey Ez. rewrite HN, Ex, Ey, Ez. reflexivity.
  - intros HN. apply Nat.eqb_neq in HN. rewrite HN. reflexivity.
  - intros Hoff. destruct (N_members (members u) =? 1); [|reflexivity].
    destruct Hoff as [E|[E|E]]; rewrite E;
      rewrite ?andb_false_r; reflexivity.
  - intros Hzero. split.
    + intros HN Horigin. rewrite HN. cbn [Nat.eqb].
      apply andb_prop in Horigin. destruct Horigin as [Hxy Ez].
      apply andb_prop in Hxy. destruct Hxy as [Ex Ey].
      destruct (Hzero Ex) as [Hy Hz]. rewrite Ex, Hy, Hz, Ey, Ez. reflexivity.
    + intros Hoff. destruct (N_members (members u) =? 1); [|reflexivity].
      destruct (s_eqb px s_zero) eqn:Ex; [|reflexivity].
      destruct (Hzero eq_refl) as [Hy Hz]. rewrite Hy, Hz.
      cbn [andb] in Hoff |- *. rewrite Hoff. reflexivity.
Qed.

(** ** Narrow phase *)

(** The two nested loops are a scan of the pairs of the two leaves. *)
Lemma narrow_phase_scan
    (dr : vec3 Scalar) (a b : union) (cur_node_a cur_node_b : nat) :
  test_narrow_phase_overlap dr a b cur_node_a cur_node_b
  = narrow_phase_spec dr a b cur_node_a cur_node_b.
Proof.
  unfold test_narrow_phase_overlap, narrow_phase_spec, leaf_members.
  rewrite any_from_existsb, existsb_list_prod, existsb_through_map.
  apply existsb_ext_in. intros i _.
  rewrite any_from_existsb, existsb_through_map.
  apply existsb_ext_in. intros j _. cbn [fst snd].
  unfold pair_overlap, masks_meet, transient_shape_a, transient_shape_b,
    effective_position, local_offset, frame_change, orientation_dependent.
  destruct (negb _); [|reflexivity]. cbn [andb].
  destruct (shape_hasOrientation (mk_shape quat_default (mparams (members a) _)));
    destruct (shape_hasOrientation (mk_shape quat_default (mparams (members b) _)));
    reflexivity.
Qed.

(** C7.  The narrow phase is the scan described step by step: the offset
    is first rotated into [b]'s frame; member [i] of [a] is placed at
    [rotate(conj(q_b).q_a, memberPosition_a[i]) - r_ab'] and, for an
    orientation-dependent kind only, oriented by
    [conj(q_b).q_a.memberOrientation_a[i]]; member [j] of [b] keeps its
    stored position and orientation; the primitive test gets
    [memberPosition_b[j] - effectivePosition_i]; and the answer is true as
    soon as one pair whose masks meet tests positive. *)
Theorem test_narrow_phase_overlap_geometry
    (dr : vec3 Scalar) (a b : union) (cur_node_a cur_node_b : nat) :
  test_narrow_phase_overlap dr a b cur_node_a cur_node_b
  = existsb (fun ij =>
       masks_meet a b (fst ij) (snd ij)
       && fst (shape_test_overlap
                 (vsub (mpos (members b) (snd ij))
                       (vsub (rotate (qmul (conj (orientation b)) (orientation a))
                                     (mpos (members a) (fst ij)))
                             (rotate (conj (orientation b)) dr)))
                 (transient_shape_a a b (fst ij))
                 (transient_shape_b b (snd ij)) 0%N))
      (list_prod (leaf_members (tree (members a)) cur_node_a)
                 (leaf_members (tree (members b)) cur_node_b))
  /\ (forall i, orientation_dependent a i = true ->
        s_orientation (transient_shape_a a b i)
        = qmul (qmul (conj (orientation b)) (orientation a))
               (morientation (members a) i))
  /\ (forall i, orientation_dependent a i = false ->
        s_orientation (transient_shape_a a b i) = quat_default)
  /\ (forall j, orientation_dependent b j = true ->
        s_orientation (transient_shape_b b j) = morientation (members b) j)
  /\ (forall j, orientation_dependent b j = false ->
        s_orientation (transient_shape_b b j) = quat_default).
Proof.
  split; [apply narrow_phase_scan|].
  unfold transient_shape_a, transient_shape_b, frame_change; cbn.
  repeat split; intros k Hk; rewrite Hk; reflexivity.
Qed.

(** ** Dispatcher *)

Lemma test_overlap_unfold (fuel : nat) (r_ab : vec3 Scalar) (a b : union) (err : N) :
  test_overlap fuel r_ab a b err
  = (leaf_loop (leaf_traversal fuel r_ab a b) 0 (driving_leaves a b), err).
Proof.
  unfold test_overlap, leaf_traversal, driving_leaves, a_drives.
  rewrite !Nat.sub_0_r.
  destruct (getNumLeaves (tree (members a)) <=? getNumLeaves (tree (members b)));
    reflexivity.
Qed.

(** The counter handed to [test_overlap] comes back as it went in. *)
Lemma test_overlap_err_untouched (fuel : nat) (r_ab : vec3 Scalar) (a b : union) (err : N) :
  snd (test_overlap fuel r_ab a b err) = err.
Proof. rewrite test_overlap_unfold. reflexivity. Qed.

(** C5.  The side with fewer leaves drives, [a] on a tie; its leaves are
    enumerated, one traversal each against the other hierarchy, with the
    offset negated when [b] drives; and when these traversals return, the
    answer is the disjunction of their results. *)
Theorem test_overlap_dispatch
    (fuel : nat) (r_ab : vec3 Scalar) (a b : union) (err : N)
    (returns : forall k, k < driving_leaves a b ->
                 exists res, leaf_traversal fuel r_ab a b k = Finished res) :
  driving_leaves a b
    = Nat.min (getNumLeaves (tree (members a))) (getNumLeaves (tree (members b)))
  /\ (forall k, leaf_traversal fuel r_ab a b k
        = if getNumLeaves (tree (members a)) <=? getNumLeaves (tree (members b))
          then query_node fuel (getLeafNode (tree (members a)) k) r_ab a b
          else query_node fuel (getLeafNode (tree (members b)) k) (vneg r_ab) b a)
  /\ fst (test_overlap fuel r_ab a b err)
     = Finished (existsb (fun k => returns_true (leaf_traversal fuel r_ab a b k))
                         (seq 0 (driving_leaves a b)))
  /\ (fst (test_overlap fuel r_ab a b err) = Finished true
      <-> exists k, k < driving_leaves a b
                    /\ leaf_traversal fuel r_ab a b k = Finished true).
Proof.
  assert (Hres : fst (test_overlap fuel r_ab a b err)
     = Finished (existsb (fun k => returns_true (leaf_traversal fuel r_ab a b k))
                         (seq 0 (driving_leaves a b)))).
  { rewrite test_overlap_unfold. cbn [fst].
    apply leaf_loop_all_finished. intros k Hk. apply returns. lia. }
  split; [|split; [|split]].
  - unfold driving_leaves, a_drives.
    destruct (Nat.leb_spec (getNumLeaves (tree (members a)))
                           (getNumLeaves (tree (members b)))); lia.
  - intros k. reflexivity.
  - exact Hres.
  - rewrite Hres. split.
    + intros H. injection H as H. apply existsb_exists in H.
      destruct H as [k [Hin Hk]]. apply in_seq in Hin. exists k. split; [lia|].
      destruct (leaf_traversal fuel r_ab a b k) as [[|]| | |]; try discriminate.
      reflexivity.
    + intros [k [Hk Htrue]]. f_equal. apply existsb_exists. exists k.
      split; [apply in_seq; lia|]. rewrite Htrue. reflexivity.
Qed.


End UnionFacts.

(** ** The descent loop *)

Section DescentFacts.
Context {VM : VectorMath} {BB : BoundingBox VM}.
Variables (tree_b : GPUTree OBB) (obb_a : OBB) (narrow : nat -> bool).

Local Abbreviation lc := (child_l_of tree_b).
Local Abbreviation rc := (child_r_of tree_b).
Local Abbreviation trav := (traverse tree_b obb_a).
Local Abbreviation hit := (leaf_hit tree_b obb_a narrow).
Local Abbreviation step := (query_step tree_b obb_a narrow).
Local Abbreviation loop := (query_loop tree_b obb_a narrow).
Local Abbreviation sentinel := (getNumNodes tree_b).
Local Abbreviation resume_b := (resume tree_b obb_a narrow).

Lemma query_loop_S (fuel cur : nat) (stack : list nat) :
  loop (S fuel) cur stack
  = match step cur stack with
    | Hit => Finished true
    | PushOutOfBounds => StackOverflow
    | PopOutOfBounds => StackUnderflow
    | Next cur' stack' =>
        if cur' =? sentinel then Finished false else loop fuel cur' stack'
    end.
Proof. reflexivity. Qed.

Lemma query_step_hit (cur : nat) (stack : list nat) :
  step cur stack = Hit <-> hit (lc cur) = true \/ hit (rc cur) = true.
Proof.
  unfold query_step.
  destruct (hit (lc cur)); [intuition|].
  destruct (hit (rc cur)); [intuition|].
  split; [|intros [H|H]; discriminate H].
  destruct (trav (lc cur)), (trav (rc cur)); cbn [negb andb];
    try destruct stack; try destruct (stack_capacity <=? _); discriminate.
Qed.

(** The boolean tests of the loop body against the rule's conditions. *)
Lemma traverse_qualifies (child : nat) :
  trav child = true <-> qualifies tree_b obb_a child.
Proof.
  unfold traverse, overlap_with, qualifies.
  rewrite andb_true_iff, negb_true_iff. reflexivity.
Qed.

Lemma traverse_not_qualifies (child : nat) :
  trav child = false <-> ~ qualifies tree_b obb_a child.
Proof.
  rewrite <- traverse_qualifies.
  destruct (trav child); split; intros H; congruence.
Qed.

Lemma leaf_hit_positive (child : nat) :
  hit child = true <-> positive_leaf tree_b obb_a narrow child.
Proof.
  unfold leaf_hit, overlap_with, positive_leaf.
  rewrite !andb_true_iff. tauto.
Qed.

Lemma leaf_hit_not_positive (child : nat) :
  hit child = false <-> ~ positive_leaf tree_b obb_a narrow child.
Proof.
  rewrite <- leaf_hit_positive.
  destruct (hit child); split; intros H; congruence.
Qed.

Lemma query_step_returns (cur : nat) (stack : list nat) :
  step cur stack = Hit
  <-> positive_leaf tree_b obb_a narrow (getLeftChild tree_b cur)
      \/ positive_leaf tree_b obb_a narrow
           (advanceNode tree_b (getLeftChild tree_b cur) true).
Proof.
  rewrite query_step_hit, !leaf_hit_positive. reflexivity.
Qed.

Lemma query_step_next (cur : nat) (stack : list nat) (cur' : nat) (stack' : list nat) :
  step cur stack = Next cur' stack'
  <-> ~ positive_leaf tree_b obb_a narrow (getLeftChild tree_b cur)
      /\ ~ positive_leaf tree_b obb_a narrow
            (advanceNode tree_b (getLeftChild tree_b cur) true)
      /\ transition tree_b obb_a cur stack cur' stack'.
Proof.
  unfold query_step.
  destruct (hit (lc cur)) eqn:Hl.
  { split; [discriminate|]. intros [Np _]. exfalso. apply Np.
    exact (proj1 (leaf_hit_positive _) Hl). }
  destruct (hit (rc cur)) eqn:Hr.
  { split; [discriminate|]. intros [_ [Np _]]. exfalso. apply Np.
    exact (proj1 (leaf_hit_positive _) Hr). }
  pose proof (proj1 (leaf_hit_not_positive _) Hl) as Nl.
  pose proof (proj1 (leaf_hit_not_positive _) Hr) as Nr.
  destruct (trav (lc cur)) eqn:El, (trav (rc cur)) eqn:Er; cbn [negb andb].
  - pose proof (proj1 (traverse_qualifies _) El) as Ql.
    pose proof (proj1 (traverse_qualifies _) Er) as Qr.
    destruct (Nat.leb_spec stack_capacity (length stack)) as [Hfull|Hroom].
    + split; [discriminate|]. intros [_ [_ T]].
      inversion T; subst; try contradiction.
      unfold stack_capacity in Hfull. lia.
    + split.
      * intros H. injection H as <- <-.
        split; [exact Nl|]. split; [exact Nr|].
        apply T_descend_push; assumption.
      * intros [_ [_ T]]. inversion T; subst; try contradiction. reflexivity.
  - pose proof (proj1 (traverse_qualifies _) El) as Ql.
    pose proof (proj1 (traverse_not_qualifies _) Er) as Qr.
    split.
    + intros H. injection H as <- <-.
      split; [exact Nl|]. split; [exact Nr|].
      apply T_descend_left; assumption.
    + intros [_ [_ T]]. inversion T; subst; try contradiction. reflexivity.
  - pose proof (proj1 (traverse_not_qualifies _) El) as Ql.
    pose proof (proj1 (traverse_qualifies _) Er) as Qr.
    split.
    + intros H. injection H as <- <-.
      split; [exact Nl|]. split; [exact Nr|].
      apply T_descend_right; assumption.
    + intros [_ [_ T]]. inversion T; subst; try contradiction. reflexivity.
  - pose proof (proj1 (traverse_not_qualifies _) El) as Ql.
    pose proof (proj1 (traverse_not_qualifies _) Er) as Qr.
    destruct stack as [|top rest].
    + split; [discriminate|]. intros [_ [_ T]].
      inversion T; subst; try contradiction. discriminate.
    + split.
      * intros H. injection H as <- <-.
        split; [exact Nl|]. split; [exact Nr|].
        apply T_pop; auto.
      * intros [_ [_ T]]. inversion T; subst; try contradiction.
        congruence.
Qed.

Lemma transition_deterministic (cur : nat) (stack : list nat)
    (c1 c2 : nat) (s1 s2 : list nat) :
  transition tree_b obb_a cur stack c1 s1 ->
  transition tree_b obb_a cur stack c2 s2 ->
  c1 = c2 /\ s1 = s2.
Proof.
  intros T1 T2. inversion T1; subst; inversion T2; subst;
    try contradiction; try (split; reflexivity).
  split; congruence.
Qed.

Lemma query_loop_sound (fuel cur : nat) (stack : list nat) (b : bool) :
  loop fuel cur stack = Finished b ->
  loop_returns tree_b obb_a narrow cur stack b.
Proof.
  revert cur stack. induction fuel as [|fuel IH]; intros cur stack H.
  - discriminate H.
  - rewrite query_loop_S in H.
    destruct (step cur stack) as [|cur' stack'| |] eqn:Hstep; try discriminate H.
    + injection H as <-. apply L_hit.
      exact (proj1 (query_step_returns cur stack) Hstep).
    + apply query_step_next in Hstep. destruct Hstep as [Hl [Hr T]].
      destruct (Nat.eqb_spec cur' sentinel) as [->|Hne].
      * injection H as <-. now apply L_sentinel with stack'.
      * apply L_iterate with cur' stack'; auto.
Qed.

Lemma query_loop_complete (cur : nat) (stack : list nat) (b : bool) :
  loop_returns tree_b obb_a narrow cur stack b ->
  exists fuel, loop fuel cur stack = Finished b.
Proof.
  induction 1 as [cur stack Hhit
                 |cur stack stack' Hl Hr T
                 |cur stack cur' stack' b Hl Hr T Hne _ [fuel IH]].
  - exists 1. rewrite query_loop_S.
    rewrite (proj2 (query_step_returns cur stack) Hhit). reflexivity.
  - exists 1. rewrite query_loop_S.
    rewrite (proj2 (query_step_next cur stack sentinel stack'))
      by (repeat split; assumption).
    rewrite Nat.eqb_refl. reflexivity.
  - exists (S fuel). rewrite query_loop_S.
    rewrite (proj2 (query_step_next cur stack cur' stack'))
      by (repeat split; assumption).
    apply Nat.eqb_neq in Hne. rewrite Hne. exact IH.
Qed.

(** With no positive narrow-phase test the loop cannot return true. *)
Lemma query_loop_never_true (fuel cur : nat) (stack : list nat) :
  (forall child, narrow child = false) ->
  loop fuel cur stack <> Finished true.
Proof.
  intros Hnarrow. revert cur stack.
  induction fuel as [|fuel IH]; intros cur stack; [discriminate|].
  rewrite query_loop_S.
  destruct (step cur stack) as [|cur' stack'| |] eqn:Hstep; try discriminate.
  - apply (proj1 (query_step_hit cur stack)) in Hstep. unfold leaf_hit in Hstep.
    rewrite !Hnarrow, !andb_false_r in Hstep. destruct Hstep; discriminate.
  - destruct (cur' =? sentinel); [discriminate | apply IH].
Qed.

(** *** The stack bound *)

(** Whatever the hierarchy, a pop finds an entry: the sentinel sits at the
    bottom of the stack, and popping it ends the loop. *)
Lemma query_loop_never_underflows (fuel cur : nat) (pushed : list nat) :
  loop fuel cur (pushed ++ [sentinel]) <> StackUnderflow.
Proof.
  revert cur pushed.
  induction fuel as [|fuel IH]; intros cur pushed; [discriminate|].
  rewrite query_loop_S. unfold query_step.
  destruct (hit (lc cur)); [discriminate|].
  destruct (hit (rc cur)); [discriminate|].
  destruct (trav (lc cur)), (trav (rc cur)); cbn [negb andb].
  - destruct (stack_capacity <=? length (pushed ++ [sentinel]));
      [discriminate|].
    destruct (lc cur =? sentinel); [discriminate|].
    apply (IH (lc cur) (rc cur :: pushed)).
  - destruct (lc cur =? sentinel); [discriminate | apply IH].
  - destruct (rc cur =? sentinel); [discriminate | apply IH].
  - destruct pushed as [|top rest]; cbn [app].
    + rewrite Nat.eqb_refl. discriminate.
    + destruct (top =? sentinel); [discriminate | apply IH].
Qed.

Lemma unfolds_isLeaf (t : btree) :
  unfolds tree_b t -> isLeaf tree_b (node_id t) = negb (is_internal t).
Proof. destruct t; simpl; intuition. Qed.

Lemma internal_height (t : btree) : is_internal t = true -> 1 <= height t.
Proof. destruct t; simpl; [discriminate | lia]. Qed.

Lemma traverse_internal (t : btree) :
  unfolds tree_b t -> trav (node_id t) = true -> is_internal t = true.
Proof.
  intros Hu Ht. unfold traverse in Ht. rewrite (unfolds_isLeaf t Hu) in Ht.
  apply andb_prop in Ht. destruct Ht as [_ Ht].
  now rewrite negb_involutive in Ht.
Qed.

(** Descending below_b an internal node with room for its height on the
    stack either returns or comes back to pop the stack it started with;
    no push leaves the array and no pop finds it empty. *)
Lemma descent_of_subtree (t : btree) :
  unfolds tree_b t -> is_internal t = true ->
  forall (stack : list nat) (fuel : nat),
    stack <> [] ->
    length stack + height t <= S stack_capacity ->
    (exists b, loop (internal_nodes t + fuel) (node_id t) stack = Finished b)
    \/ (exists fuel', fuel <= fuel'
          /\ loop (internal_nodes t + fuel) (node_id t) stack
             = resume_b fuel' stack).
Proof.
  induction t as [id|id l IHl r IHr]; intros Hu Hint stack fuel Hne Hroom.
  - discriminate Hint.
  - destruct Hu as [_ [Hlc [Hrc [Hul Hur]]]].
    cbn [internal_nodes node_id height] in *.
    cbn [Nat.add]. rewrite query_loop_S.
    unfold query_step, child_r_of, child_l_of. rewrite Hlc, Hrc.
    destruct (hit (node_id l)); [left; eexists; reflexivity|].
    destruct (hit (node_id r)); [left; eexists; reflexivity|].
    destruct (trav (node_id l)) eqn:Tl, (trav (node_id r)) eqn:Tr;
      cbn [negb andb].
    + (* both children are internal: descend left, push right *)
      pose proof (internal_height l (traverse_internal l Hul Tl)) as Hhl.
      destruct (Nat.leb_spec stack_capacity (length stack)) as [Hfull|_];
        [exfalso; lia|].
      destruct (node_id l =? sentinel); [left; eexists; reflexivity|].
      rewrite <- Nat.add_assoc.
      destruct (IHl Hul (traverse_internal l Hul Tl) (node_id r :: stack)
                    (internal_nodes r + fuel) ltac:(discriminate)
                    ltac:(cbn [length]; lia))
        as [[b Hb]|[fuel' [Hf Hb]]].
      * left. exists b. exact Hb.
      * rewrite Hb. cbn [resume_b].
        destruct (node_id r =? sentinel); [left; eexists; reflexivity|].
        replace fuel' with (internal_nodes r + (fuel' - internal_nodes r))
          by lia.
        destruct (IHr Hur (traverse_internal r Hur Tr) stack
                      (fuel' - internal_nodes r) Hne ltac:(lia))
          as [[b Hb']|[fuel'' [Hf' Hb']]].
        -- left. exists b. exact Hb'.
        -- right. exists fuel''. split; [lia | exact Hb'].
    + (* only the left child is internal *)
      destruct (node_id l =? sentinel); [left; eexists; reflexivity|].
      rewrite <- Nat.add_assoc.
      destruct (IHl Hul (traverse_internal l Hul Tl) stack
                    (internal_nodes r + fuel) Hne ltac:(lia))
        as [[b Hb]|[fuel' [Hf Hb]]].
      * left. exists b. exact Hb.
      * right. exists fuel'. split; [lia | exact Hb].
    + (* only the right child is internal *)
      destruct (node_id r =? sentinel); [left; eexists; reflexivity|].
      replace (internal_nodes l + internal_nodes r + fuel)
        with (internal_nodes r + (internal_nodes l + fuel)) by lia.
      destruct (IHr Hur (traverse_internal r Hur Tr) stack
                    (internal_nodes l + fuel) Hne ltac:(lia))
        as [[b Hb]|[fuel' [Hf Hb]]].
      * left. exists b. exact Hb.
      * right. exists fuel'. split; [lia | exact Hb].
    + (* neither: pop *)
      destruct stack as [|top rest]; [contradiction|].
      right. exists (internal_nodes l + internal_nodes r + fuel).
      split; [lia | reflexivity].
Qed.

(** From the root, with the sentinel alone on the stack. *)
Lemma query_loop_finishes (t : btree) (fuel : nat) :
  node_id t = 0 -> unfolds tree_b t -> is_internal t = true ->
  height t <= stack_capacity -> internal_nodes t <= fuel ->
  exists b, loop fuel 0 [sentinel] = Finished b.
Proof.
  intros Hroot Hu Hint Hh Hfuel.
  replace fuel with (internal_nodes t + (fuel - internal_nodes t)) by lia.
  rewrite <- Hroot.
  destruct (descent_of_subtree t Hu Hint [sentinel]
              (fuel - internal_nodes t) ltac:(discriminate)
              ltac:(cbn [length]; lia))
    as [[b Hb]|[fuel' [_ Hb]]].
  - exists b. exact Hb.
  - exists false. rewrite Hb. cbn [resume_b]. now rewrite Nat.eqb_refl.
Qed.

(** *** What a descent finds *)

Local Abbreviation ov := (overlap_with tree_b obb_a).
Local Abbreviation visit_b := (visit tree_b obb_a narrow).
Local Abbreviation below_b := (below tree_b obb_a narrow).
Local Abbreviation flat_scan_b := (flat_scan tree_b obb_a narrow).
Local Abbreviation nested_b := (nested tree_b obb_a).

Lemma node_id_in_nodes (t : btree) : In (node_id t) (nodes_of t).
Proof. destruct t; simpl; auto. Qed.

(** A child is dealt with either on the spot (a leaf) or by descending
    into it (an internal node). *)
Lemma visit_split (t : btree) :
  unfolds tree_b t ->
  visit_b t = hit (node_id t) || (trav (node_id t) && below_b t).
Proof.
  intros Hu. unfold leaf_hit, traverse.
  rewrite (unfolds_isLeaf t Hu).
  destruct t as [id|id l r]; cbn [visit_b below_b node_id is_internal negb].
  - rewrite !andb_true_r, !andb_false_r, orb_false_r. reflexivity.
  - rewrite !andb_false_r, andb_true_r. reflexivity.
Qed.

(** The descent below_b an internal node returns true when a positive leaf
    is reached under it, and otherwise comes back to pop the stack it
    started with. *)
Lemma descent_result (t : btree) :
  unfolds tree_b t -> is_internal t = true ->
  (forall id, In id (nodes_of t) -> id <> sentinel) ->
  forall (stack : list nat) (fuel : nat),
    stack <> [] ->
    length stack + height t <= S stack_capacity ->
    (below_b t = true
     /\ loop (internal_nodes t + fuel) (node_id t) stack = Finished true)
    \/ (below_b t = false
        /\ exists fuel', fuel <= fuel'
             /\ loop (internal_nodes t + fuel) (node_id t) stack
                = resume_b fuel' stack).
Proof.
  induction t as [id|id l IHl r IHr]; intros Hu Hint Hids stack fuel Hne Hroom.
  - discriminate Hint.
  - destruct Hu as [_ [Hlc [Hrc [Hul Hur]]]].
    assert (Hidl : forall x, In x (nodes_of l) -> x <> sentinel).
    { intros x Hx. apply Hids. cbn [nodes_of]. right. apply in_or_app. now left. }
    assert (Hidr : forall x, In x (nodes_of r) -> x <> sentinel).
    { intros x Hx. apply Hids. cbn [nodes_of]. right. apply in_or_app. now right. }
    pose proof (proj2 (Nat.eqb_neq _ _) (Hidl _ (node_id_in_nodes l))) as Hnl.
    pose proof (proj2 (Nat.eqb_neq _ _) (Hidr _ (node_id_in_nodes r))) as Hnr.
    cbn [internal_nodes node_id height below_b] in *.
    rewrite (visit_split l Hul), (visit_split r Hur).
    cbn [Nat.add]. rewrite query_loop_S.
    unfold query_step, child_r_of, child_l_of. rewrite Hlc, Hrc.
    destruct (hit (node_id l)); [left; split; reflexivity|].
    destruct (hit (node_id r));
      [left; split; [apply orb_true_r | reflexivity]|].
    cbn [orb].
    destruct (trav (node_id l)) eqn:Tl, (trav (node_id r)) eqn:Tr;
      cbn [negb andb orb].
    + pose proof (internal_height l (traverse_internal l Hul Tl)) as Hhl.
      destruct (Nat.leb_spec stack_capacity (length stack)) as [Hfull|_];
        [exfalso; lia|].
      rewrite Hnl, <- Nat.add_assoc.
      destruct (IHl Hul (traverse_internal l Hul Tl) Hidl (node_id r :: stack)
                    (internal_nodes r + fuel) ltac:(discriminate)
                    ltac:(cbn [length]; lia))
        as [[Hb Hrun]|[Hb [fuel' [Hf Hrun]]]]; rewrite Hb, Hrun.
      * left. split; reflexivity.
      * cbn [resume orb]. rewrite Hnr.
        replace fuel' with (internal_nodes r + (fuel' - internal_nodes r))
          by lia.
        destruct (IHr Hur (traverse_internal r Hur Tr) Hidr stack
                      (fuel' - internal_nodes r) Hne ltac:(lia))
          as [[Hb' Hrun']|[Hb' [fuel'' [Hf' Hrun']]]]; rewrite Hb', Hrun'.
        -- left. split; reflexivity.
        -- right. split; [reflexivity|]. exists fuel''. split; [lia | reflexivity].
    + rewrite Hnl, <- Nat.add_assoc, orb_false_r.
      destruct (IHl Hul (traverse_internal l Hul Tl) Hidl stack
                    (internal_nodes r + fuel) Hne ltac:(lia))
        as [[Hb Hrun]|[Hb [fuel' [Hf Hrun]]]]; rewrite Hb, Hrun.
      * left. split; reflexivity.
      * right. split; [reflexivity|]. exists fuel'. split; [lia | reflexivity].
    + rewrite Hnr.
      replace (internal_nodes l + internal_nodes r + fuel)
        with (internal_nodes r + (internal_nodes l + fuel)) by lia.
      destruct (IHr Hur (traverse_internal r Hur Tr) Hidr stack
                    (internal_nodes l + fuel) Hne ltac:(lia))
        as [[Hb Hrun]|[Hb [fuel' [Hf Hrun]]]]; rewrite Hb, Hrun.
      * left. split; reflexivity.
      * right. split; [reflexivity|]. exists fuel'. split; [lia | reflexivity].
    + destruct stack as [|top rest]; [contradiction|].
      right. split; [reflexivity|].
      exists (internal_nodes l + internal_nodes r + fuel).
      split; [lia | reflexivity].
Qed.

(** From the root, with the sentinel alone on the stack. *)
Lemma query_loop_result (t : btree) (fuel : nat) :
  node_id t = 0 -> unfolds tree_b t -> is_internal t = true ->
  (forall id, In id (nodes_of t) -> id <> sentinel) ->
  height t <= stack_capacity -> internal_nodes t <= fuel ->
  loop fuel 0 [sentinel] = Finished (below_b t).
Proof.
  intros Hroot Hu Hint Hids Hh Hfuel.
  replace fuel with (internal_nodes t + (fuel - internal_nodes t)) by lia.
  rewrite <- Hroot.
  destruct (descent_result t Hu Hint Hids [sentinel]
              (fuel - internal_nodes t) ltac:(discriminate)
              ltac:(cbn [length]; lia))
    as [[Hb Hrun]|[Hb [fuel' [_ Hrun]]]]; rewrite Hb, Hrun.
  - reflexivity.
  - cbn [resume]. now rewrite Nat.eqb_refl.
Qed.

(** With nested_b boxes the pruning loses nothing. *)
Lemma visit_flat (t : btree) : nested_b t -> visit_b t = flat_scan_b t.
Proof.
  induction t as [id|id l IHl r IHr]; intros Hn.
  - cbn. now rewrite orb_false_r.
  - destruct Hn as [Hroot [Hl Hr]].
    cbn [visit node_id]. rewrite (IHl Hl), (IHr Hr).
    unfold flat_scan. cbn [leaves_of]. rewrite existsb_app.
    destruct (ov id) eqn:Hov; [reflexivity|]. cbn [andb].
    rewrite <- existsb_app. symmetry. apply existsb_false_in.
    intros leaf Hleaf. rewrite (Hroot eq_refl leaf Hleaf). reflexivity.
Qed.

Lemma below_flat (t : btree) :
  is_internal t = true -> nested_b t -> below_b t = flat_scan_b t.
Proof.
  destruct t as [id|id l r]; intros Hint Hn; [discriminate|].
  destruct Hn as [_ [Hl Hr]]. cbn [below].
  rewrite (visit_flat l Hl), (visit_flat r Hr).
  unfold flat_scan. cbn [leaves_of]. now rewrite existsb_app.
Qed.

End DescentFacts.

Lemma transition_total {VM : VectorMath} {BB : BoundingBox VM}
    (tree_b : GPUTree OBB) (obb_a : OBB) (cur : nat) (stack : list nat) :
  stack <> [] -> length stack < 64 ->
  exists cur' stack', transition tree_b obb_a cur stack cur' stack'.
Proof.
  intros Hne Hroom.
  destruct (traverse tree_b obb_a (getLeftChild tree_b cur)) eqn:Tl,
           (traverse tree_b obb_a
              (advanceNode tree_b (getLeftChild tree_b cur) true)) eqn:Tr.
  - apply traverse_qualifies in Tl, Tr.
    eexists. eexists. apply T_descend_push; assumption.
  - apply traverse_qualifies in Tl. apply traverse_not_qualifies in Tr.
    eexists. eexists. apply T_descend_left; assumption.
  - apply traverse_not_qualifies in Tl. apply traverse_qualifies in Tr.
    eexists. eexists. apply T_descend_right; assumption.
  - apply traverse_not_qualifies in Tl, Tr.
    destruct stack as [|top rest]; [contradiction|].
    exists top, rest. apply T_pop; auto.
Qed.

Lemma leaf_loop_all_false (q : nat -> outcome) (start n : nat) :
  (forall k, start <= k < start + n -> q k = Finished false) ->
  leaf_loop q start n = Finished false.
Proof.
  revert start; induction n as [|n IH]; intros start H; simpl.
  - reflexivity.
  - rewrite (H start ltac:(lia)). apply IH. intros k Hk. apply H. lia.
Qed.

Section TraversalFacts.
Context {VM : VectorMath} {MS : MemberShape VM} {BB : BoundingBox VM}.

(** C6.  The loop of [query_node] follows the transition rule and ends as
    stated.  The rule is written over the hierarchy's own accessors: the
    two children are [getLeftChild] of the current node and the node
    [advanceNode] skips to from it, and a child qualifies when its box
    overlaps and it is not a leaf.  The stack starts as the sentinel
    alone, the sentinel being the node count of [b]'s hierarchy, and the
    current node as the root.  A pass that finds no positive leaf makes a
    transition of the rule (pop when neither child qualifies, descend
    into the one that does, or descend left and push right when both
    do), and the rule allows one transition only; with an entry on the
    stack and room for a push it allows one.  The loop returns false
    exactly when some transition makes the sentinel the current node, and
    true exactly when a narrow-phase test on an overlapping leaf child is
    positive first. *)
Theorem query_node_transition_rule
    (cur_node_a : nat) (r_ab : vec3 Scalar) (a b : union) :
  (forall fuel, (getNumNodes (tree (members b)) =? 1) = false ->
     query_node fuel cur_node_a r_ab a b
     = query_loop (tree (members b)) (box_in_frame_of r_ab a b cur_node_a)
         (fun child => test_narrow_phase_overlap r_ab a b cur_node_a child)
         fuel 0 [getNumNodes (tree (members b))])
  /\ (forall cur stack cur' stack',
        query_step (tree (members b)) (box_in_frame_of r_ab a b cur_node_a)
          (fun child => test_narrow_phase_overlap r_ab a b cur_node_a child)
          cur stack = Next cur' stack'
        <-> ~ positive_leaf (tree (members b))
                (box_in_frame_of r_ab a b cur_node_a)
                (fun child => test_narrow_phase_overlap r_ab a b cur_node_a child)
                (getLeftChild (tree (members b)) cur)
            /\ ~ positive_leaf (tree (members b))
                  (box_in_frame_of r_ab a b cur_node_a)
                  (fun child => test_narrow_phase_overlap r_ab a b cur_node_a child)
                  (advanceNode (tree (members b))
                     (getLeftChild (tree (members b)) cur) true)
            /\ transition (tree (members b))
                 (box_in_frame_of r_ab a b cur_node_a) cur stack cur' stack')
  /\ (forall cur stack c1 s1 c2 s2,
        transition (tree (members b)) (box_in_frame_of r_ab a b cur_node_a)
          cur stack c1 s1 ->
        transition (tree (members b)) (box_in_frame_of r_ab a b cur_node_a)
          cur stack c2 s2 ->
        c1 = c2 /\ s1 = s2)
  /\ (forall cur stack, stack <> [] -> length stack < 64 ->
        exists cur' stack',
          transition (tree (members b)) (box_in_frame_of r_ab a b cur_node_a)
            cur stack cur' stack')
  /\ (forall cur stack res,
        (exists fuel,
           query_loop (tree (members b)) (box_in_frame_of r_ab a b cur_node_a)
             (fun child => test_narrow_phase_overlap r_ab a b cur_node_a child)
             fuel cur stack = Finished res)
        <-> loop_returns (tree (members b)) (box_in_frame_of r_ab a b cur_node_a)
              (fun child => test_narrow_phase_overlap r_ab a b cur_node_a child)
              cur stack res).
Proof.
  split; [|split; [|split; [|split]]].
  - intros fuel Hn. unfold query_node. rewrite Hn. reflexivity.
  - intros. apply query_step_next.
  - intros cur stack c1 s1 c2 s2. apply transition_deterministic.
  - intros cur stack. apply transition_total.
  - intros cur stack res. split.
    + intros [fuel H]. eapply query_loop_sound. exact H.
    + apply query_loop_complete.
Qed.

(** No traversal reads below the stack, on any hierarchy. *)
Lemma query_node_never_underflows
    (fuel cur_node_a : nat) (r_ab : vec3 Scalar) (a b : union) :
  query_node fuel cur_node_a r_ab a b <> StackUnderflow.
Proof.
  unfold query_node.
  destruct (getNumNodes (tree (members b)) =? 1); [discriminate|].
  apply (query_loop_never_underflows _ _ _ fuel 0 []).
Qed.

(** A traversal against a hierarchy of depth at most the capacity of the
    stack returns. *)
Lemma query_node_returns
    (cur_node_a : nat) (r_ab : vec3 Scalar) (a b : union)
    (t : btree) (fuel : nat) :
  hierarchy (tree (members b)) t ->
  height t <= stack_capacity ->
  internal_nodes t <= fuel ->
  exists res, query_node fuel cur_node_a r_ab a b = Finished res.
Proof.
  intros [Hroot [Hu Hone]] Hh Hfuel. unfold query_node.
  destruct (getNumNodes (tree (members b)) =? 1) eqn:Hn.
  - eexists. reflexivity.
  - apply query_loop_finishes with t; auto.
    destruct (is_internal t); [reflexivity|].
    apply Nat.eqb_neq in Hn. exfalso. apply Hn. apply Hone. reflexivity.
Qed.

(** C9.  When the traversed hierarchy is no deeper than the 64 entries of
    the stack, a traversal returns a boolean: no push writes past the
    array and no pop reads below the sentinel, either of which the
    embedding would report as its own outcome. *)
Theorem query_node_stack_within_bounds
    (cur_node_a : nat) (r_ab : vec3 Scalar) (a b : union)
    (t : btree) (fuel : nat)
    (shape : hierarchy (tree (members b)) t)
    (depth : height t <= 64)
    (enough : internal_nodes t <= fuel) :
  (exists res, query_node fuel cur_node_a r_ab a b = Finished res)
  /\ query_node fuel cur_node_a r_ab a b <> StackOverflow
  /\ query_node fuel cur_node_a r_ab a b <> StackUnderflow.
Proof.
  destruct (query_node_returns cur_node_a r_ab a b t fuel shape depth enough)
    as [res Hres].
  rewrite Hres. repeat split; [eexists; reflexivity | discriminate | discriminate].
Qed.

(** *** Mask gating *)

Lemma masks_disjoint_sym (a b : union) :
  masks_disjoint a b -> masks_disjoint b a.
Proof.
  intros H j i Hj Hi. rewrite N.land_comm. apply H; assumption.
Qed.

Lemma leaf_members_in_range (u : union) (node i : nat) :
  members_in_range u -> In i (leaf_members (tree (members u)) node) ->
  i < N_members (members u).
Proof.
  intros Hr Hin. unfold leaf_members in Hin. apply in_map_iff in Hin.
  destruct Hin as [k [<- Hk]]. apply in_seq in Hk. apply Hr. lia.
Qed.

Lemma narrow_phase_masked (dr : vec3 Scalar) (a b : union) (node_a node_b : nat) :
  masks_disjoint a b -> members_in_range a -> members_in_range b ->
  test_narrow_phase_overlap dr a b node_a node_b = false.
Proof.
  intros Hm Ha Hb. rewrite narrow_phase_scan. unfold narrow_phase_spec.
  apply existsb_false_in. intros [i j] Hin. apply in_prod_iff in Hin.
  destruct Hin as [Hi Hj]. cbn [fst snd]. unfold pair_overlap, masks_meet.
  rewrite Hm.
  - reflexivity.
  - eapply leaf_members_in_range; eassumption.
  - eapply leaf_members_in_range; eassumption.
Qed.

Lemma query_node_masked (fuel cur_node_a : nat) (r_ab : vec3 Scalar) (a b : union) :
  masks_disjoint a b -> members_in_range a -> members_in_range b ->
  query_node fuel cur_node_a r_ab a b <> Finished true.
Proof.
  intros Hm Ha Hb. unfold query_node.
  destruct (getNumNodes (tree (members b)) =? 1).
  - rewrite narrow_phase_masked by assumption.
    rewrite andb_false_r. discriminate.
  - apply query_loop_never_true. intros child.
    apply narrow_phase_masked; assumption.
Qed.

(** C4.  When the mask of every member of [a] and the mask of every member
    of [b] have no bit in common, the overlap test returns false, whatever
    the offset, the orientations and the member positions are.  The two
    hierarchies are finite trees no deeper than the stack, so that the
    traversals return. *)
Theorem test_overlap_mask_gating
    (fuel : nat) (r_ab : vec3 Scalar) (a b : union) (err : N)
    (ta tb : btree)
    (gated : masks_disjoint a b)
    (range_a : members_in_range a) (range_b : members_in_range b)
    (shape_a : hierarchy (tree (members a)) ta)
    (shape_b : hierarchy (tree (members b)) tb)
    (depth_a : height ta <= 64) (depth_b : height tb <= 64)
    (enough_a : internal_nodes ta <= fuel)
    (enough_b : internal_nodes tb <= fuel) :
  fst (test_overlap fuel r_ab a b err) = Finished false.
Proof.
  rewrite test_overlap_unfold. cbn [fst].
  apply leaf_loop_all_false. intros k _. unfold leaf_traversal.
  destruct (a_drives a b).
  - destruct (query_node_returns (getLeafNode (tree (members a)) k) r_ab a b
                tb fuel shape_b depth_b enough_b) as [[|] Hres].
    + exfalso. revert Hres. apply query_node_masked; assumption.
    + exact Hres.
  - destruct (query_node_returns (getLeafNode (tree (members b)) k)
                (vneg r_ab) b a ta fuel shape_a depth_a enough_a) as [[|] Hres].
    + exfalso. revert Hres.
      apply query_node_masked; auto using masks_disjoint_sym.
    + exact Hres.
Qed.

(** *** Hierarchies of a single leaf *)

Lemma narrow_phase_single_leaf (r_ab : vec3 Scalar) (a b : union) :
  single_leaf a -> single_leaf b ->
  test_narrow_phase_overlap r_ab a b 0 0 = all_pairs_scan r_ab a b.
Proof.
  intros [_ [_ [_ Pa]]] [_ [_ [_ Pb]]].
  rewrite narrow_phase_scan. unfold narrow_phase_spec, all_pairs_scan.
  rewrite !existsb_list_prod.
  rewrite (existsb_Permutation _ _ _ _ Pa).
  apply existsb_ext_in. intros i _.
  apply existsb_Permutation. exact Pb.
Qed.

(** C8.  For two composites whose hierarchies are a single leaf holding
    all members, the overlap test returns what the exhaustive scan of all
    member pairs returns (mask-filtered, with the same test per pair).
    The one box test left in this case, between the two root boxes, does
    not change the answer, the root boxes being bounding: they overlap
    when some member pair does. *)
Theorem test_overlap_single_leaf
    (fuel : nat) (r_ab : vec3 Scalar) (a b : union) (err : N)
    (one_a : single_leaf a) (one_b : single_leaf b)
    (bounding_roots :
       all_pairs_scan r_ab a b = true ->
       obb_overlap (box_in_frame_of r_ab a b 0) (getOBB (tree (members b)) 0)
       = true) :
  fst (test_overlap fuel r_ab a b err) = Finished (all_pairs_scan r_ab a b).
Proof.
  assert (H : fst (test_overlap fuel r_ab a b err)
              = Finished (obb_overlap (box_in_frame_of r_ab a b 0)
                                      (getOBB (tree (members b)) 0)
                          && all_pairs_scan r_ab a b)).
  { rewrite <- (narrow_phase_single_leaf r_ab a b one_a one_b).
    destruct one_a as [_ [La [Za _]]]. destruct one_b as [Nb [Lb _]].
    unfold test_overlap. rewrite La, Lb. cbn [Nat.leb Nat.sub leaf_loop fst].
    rewrite Za. unfold query_node. rewrite Nb. cbn [Nat.eqb].
    unfold box_in_frame_of, frame_change.
    destruct (obb_overlap _ _ && _); reflexivity. }
  rewrite H. destruct (all_pairs_scan r_ab a b).
  - rewrite (bounding_roots eq_refl). reflexivity.
  - rewrite andb_false_r. reflexivity.
Qed.

(** *** What the traversals compute, and the exchange of the bodies *)

(** On a sound hierarchy no deeper than the stack, a traversal returns
    whether a positive leaf of [b] is reached through overlapping boxes. *)
Lemma query_node_result
    (cur_node_a : nat) (r_ab : vec3 Scalar) (a b : union)
    (t : btree) (fuel : nat) :
  sound_hierarchy (tree (members b)) t ->
  height t <= stack_capacity ->
  internal_nodes t <= fuel ->
  query_node fuel cur_node_a r_ab a b
  = Finished (reached (tree (members b)) (box_in_frame_of r_ab a b cur_node_a)
                (fun child => test_narrow_phase_overlap r_ab a b cur_node_a child)
                t).
Proof.
  intros [[Hroot [Hu Hone]] [Hone' [Hids _]]] Hh Hfuel.
  unfold query_node, reached.
  destruct (Nat.eqb_spec (getNumNodes (tree (members b))) 1) as [Hn|Hn].
  - rewrite (Hone' Hn). destruct t as [id|id l r].
    + cbn in Hroot. subst id. reflexivity.
    + specialize (Hone' Hn). discriminate Hone'.
  - destruct (is_internal t) eqn:Hint; [|exfalso; auto].
    apply query_loop_result; auto.
    intros id Hid. specialize (Hids id Hid). lia.
Qed.

Lemma query_node_flat
    (cur_node_a : nat) (r_ab : vec3 Scalar) (a b : union)
    (t : btree) (fuel : nat) :
  sound_hierarchy (tree (members b)) t ->
  height t <= stack_capacity ->
  internal_nodes t <= fuel ->
  nested (tree (members b)) (box_in_frame_of r_ab a b cur_node_a) t ->
  query_node fuel cur_node_a r_ab a b
  = Finished (flat_scan (tree (members b)) (box_in_frame_of r_ab a b cur_node_a)
                (fun child => test_narrow_phase_overlap r_ab a b cur_node_a child)
                t).
Proof.
  intros Hs Hh Hfuel Hn.
  rewrite (query_node_result cur_node_a r_ab a b t fuel Hs Hh Hfuel).
  unfold reached. destruct (is_internal t) eqn:Hint.
  - now rewrite below_flat.
  - now rewrite visit_flat.
Qed.

(** With [a] driving, the dispatcher answers the scan of all leaf pairs. *)
Lemma test_overlap_leaf_pairs
    (fuel : nat) (r_ab : vec3 Scalar) (a b : union) (err : N) (ta tb : btree) :
  a_drives a b = true ->
  sound_hierarchy (tree (members a)) ta ->
  sound_hierarchy (tree (members b)) tb ->
  height tb <= stack_capacity ->
  internal_nodes tb <= fuel ->
  boxes_nested r_ab a b ta tb ->
  fst (test_overlap fuel r_ab a b err) = Finished (leaf_pairs_scan r_ab a b ta tb).
Proof.
  intros Hdrive Ha Hb Hh Hfuel Hnest.
  assert (Hleaf : forall k, k < getNumLeaves (tree (members a)) ->
            In (getLeafNode (tree (members a)) k) (leaves_of ta)).
  { intros k Hk. destruct Ha as [_ [_ [_ Hperm]]].
    apply (Permutation_in _ Hperm). apply in_map. apply in_seq. lia. }
  assert (Hrun : forall k, k < getNumLeaves (tree (members a)) ->
            leaf_traversal fuel r_ab a b k
            = Finished
                (flat_scan (tree (members b))
                   (box_in_frame_of r_ab a b (getLeafNode (tree (members a)) k))
                   (fun child => test_narrow_phase_overlap r_ab a b
                                   (getLeafNode (tree (members a)) k) child)
                   tb)).
  { intros k Hk. unfold leaf_traversal. rewrite Hdrive.
    apply query_node_flat; auto. }
  rewrite test_overlap_unfold. cbn [fst].
  unfold driving_leaves. rewrite Hdrive.
  rewrite leaf_loop_all_finished
    by (intros k Hk; rewrite Hrun by lia; eexists; reflexivity).
  f_equal. unfold leaf_pairs_scan.
  destruct Ha as [_ [_ [_ Hperm]]].
  rewrite <- (existsb_Permutation _ _ _ _ Hperm), existsb_through_map.
  apply existsb_ext_in. intros k Hk. apply in_seq in Hk.
  rewrite Hrun by lia.
  destruct (flat_scan _ _ _ tb) eqn:Hflat; cbn [returns_true];
    symmetry; exact Hflat.
Qed.




(** With disjoint masks no traversal returns true, on any hierarchy. *)
Lemma test_overlap_masked_never_true
    (fuel : nat) (r_ab : vec3 Scalar) (a b : union) (err : N) :
  masks_disjoint a b -> members_in_range a -> members_in_range b ->
  fst (test_overlap fuel r_ab a b err) <> Finished true.
Proof.
  intros Hm Ha Hb. rewrite test_overlap_unfold. cbn [fst].
  assert (Hq : forall k, leaf_traversal fuel r_ab a b k <> Finished true).
  { intros k. unfold leaf_traversal. destruct (a_drives a b).
    - apply query_node_masked; assumption.
    - apply query_node_masked; auto using masks_disjoint_sym. }
  generalize 0 as start. induction (driving_leaves a b) as [|n IH];
    intros start; cbn [leaf_loop]; [discriminate|].
  specialize (Hq start).
  destruct (leaf_traversal fuel r_ab a b start) as [[|]| | |];
    try discriminate; [contradiction | apply IH].
Qed.

End TraversalFacts.

(** ** The lattice instance at work *)

Module LatticeFacts.
Import Lattice.
Local Open Scope Z_scope.

Local Abbreviation overlap_of_spheres :=
  (@test_overlap lattice sphere_kind ball_box).

(** Two dumbbells of unit spheres at distance 4 along x, both aligned
    with the world axes and [D] apart along x, overlap exactly when
    [D < d + 2r = 6]. *)
Example dumbbells_apart_5 :
  overlap_of_spheres 1 (mk_vec3 5 0 0)
    (dumbbell 4 1 1 q_id) (dumbbell 4 1 1 q_id) 0%N = (Finished true, 0%N).
Proof. vm_compute. reflexivity. Qed.

Example dumbbells_apart_6 :
  overlap_of_spheres 1 (mk_vec3 6 0 0)
    (dumbbell 4 1 1 q_id) (dumbbell 4 1 1 q_id) 0%N = (Finished false, 0%N).
Proof. vm_compute. reflexivity. Qed.

(** A half turn of the second dumbbell brings its outer sphere back over
    the first body. *)
Example dumbbells_half_turn :
  overlap_of_spheres 1 (mk_vec3 9 0 0)
    (dumbbell 4 1 1 q_id) (dumbbell 4 1 1 q_id) 0%N = (Finished false, 0%N)
  /\ overlap_of_spheres 1 (mk_vec3 9 0 0)
       (dumbbell 4 1 1 q_id) (dumbbell 4 1 1 q_half_z) 0%N = (Finished true, 0%N).
Proof. vm_compute. split; reflexivity. Qed.

(** Past the documented depth the descent writes beyond the stack: the
    header has no check there. *)
Example bottomless_overruns_stack :
  @query_node lattice sphere_kind ball_box 100 0 origin
    (lone_sphere 1 1 1 q_id) bottomless = StackOverflow.
Proof. vm_compute. reflexivity. Qed.

(** *** The stated properties on concrete bodies *)

Local Abbreviation unit_sphere := (lone_sphere 1 1 1%N q_id).
Local Abbreviation bar := (dumbbell 4 1 1%N q_id).

(** Both leaf traversals of a dumbbell against a dumbbell return. *)
Lemma bars_traversals_return :
  forall k, (k < @driving_leaves lattice sphere_kind ball_box bar bar)%nat ->
  exists res,
    @leaf_traversal lattice sphere_kind ball_box 1 (mk_vec3 5 0 0) bar bar k
    = Finished res.
Proof.
  intros [|[|k]] Hk.
  - exists false. vm_compute. reflexivity.
  - exists true. vm_compute. reflexivity.
  - exfalso. cbv in Hk. lia.
Defined.

(** The dispatcher on two dumbbells: the disjunction over the two leaves
    of the first. *)
Lemma test_overlap_dispatch_on_bars :
  (forall k, (k < @driving_leaves lattice sphere_kind ball_box bar bar)%nat ->
     exists res,
       @leaf_traversal lattice sphere_kind ball_box 1 (mk_vec3 5 0 0) bar bar k
       = Finished res)
  /\ fst (overlap_of_spheres 1 (mk_vec3 5 0 0) bar bar 0%N)
     = Finished (existsb
         (fun k => returns_true
            (@leaf_traversal lattice sphere_kind ball_box 1 (mk_vec3 5 0 0)
               bar bar k))
         (seq 0 2)).
Proof.
  split; [exact bars_traversals_return|].
  exact (proj1 (proj2 (proj2
    (@test_overlap_dispatch lattice sphere_kind ball_box 1 (mk_vec3 5 0 0)
       bar bar 0%N bars_traversals_return)))).
Defined.

(** The dumbbell's hierarchy is sound, and its boxes are nested. *)
Lemma bar_sound_hierarchy (mask : N) (q : quat Z) :
  sound_hierarchy (tree (members (dumbbell 4 1 mask q))) dumbbell_shape.
Proof.
  unfold sound_hierarchy, hierarchy. simpl.
  repeat split; try discriminate.
  - intros id [<-|[<-|[<-|[]]]]; lia.
  - apply Permutation_refl.
Defined.

Local Abbreviation bar_turned := (dumbbell 4 1 1%N q_half_z).

Lemma bars_nested_forth :
  @boxes_nested lattice sphere_kind ball_box (mk_vec3 9 0 0)
    bar bar_turned dumbbell_shape dumbbell_shape.
Proof.
  intros leaf_a [<-|[<-|[]]]; (split; [|split; exact I]).
  - intros _ leaf [<-|[<-|[]]]; vm_compute; reflexivity.
  - intros H. vm_compute in H. discriminate H.
Defined.





Lemma bar_hierarchy :
  hierarchy (tree (members bar)) dumbbell_shape.
Proof.
  unfold hierarchy. simpl. repeat split; discriminate.
Defined.

(** A traversal of the dumbbell's hierarchy, of depth 1, returns. *)
Lemma query_node_on_bar_within_bounds :
  hierarchy (tree (members bar)) dumbbell_shape
  /\ (height dumbbell_shape <= 64)%nat
  /\ (internal_nodes dumbbell_shape <= 1)%nat
  /\ exists res,
       @query_node lattice sphere_kind ball_box 1 0 (mk_vec3 5 0 0)
         unit_sphere bar = Finished res.
Proof.
  split; [exact bar_hierarchy|].
  split; [simpl; lia|]. split; [simpl; lia|].
  apply (@query_node_stack_within_bounds lattice sphere_kind ball_box
           0%nat (mk_vec3 5 0 0) unit_sphere bar dumbbell_shape 1%nat).
  - exact bar_hierarchy.
  - simpl; lia.
  - simpl; lia.
Defined.

Lemma bar_members_in_range (mask : N) (q : quat Z) :
  @members_in_range lattice sphere_kind ball_box (dumbbell 4 1 mask q).
Proof.
  intros node k Hk. simpl in *.
  destruct node as [|[|[|node]]]; simpl in *; lia.
Defined.

Lemma bar_hierarchy_any (mask : N) (q : quat Z) :
  hierarchy (tree (members (dumbbell 4 1 mask q))) dumbbell_shape.
Proof.
  unfold hierarchy. simpl. repeat split; discriminate.
Defined.

(** Two interpenetrating dumbbells with masks 1 and 2 do not overlap. *)
Lemma test_overlap_gated_bars :
  @masks_disjoint lattice sphere_kind ball_box
    (dumbbell 4 1 1%N q_id) (dumbbell 4 1 2%N q_half_z)
  /\ fst (overlap_of_spheres 1 (mk_vec3 1 0 0)
            (dumbbell 4 1 1%N q_id) (dumbbell 4 1 2%N q_half_z) 5%N)
     = Finished false.
Proof.
  assert (Hm : @masks_disjoint lattice sphere_kind ball_box
                 (dumbbell 4 1 1%N q_id) (dumbbell 4 1 2%N q_half_z)).
  { intros i j _ _. reflexivity. }
  split; [exact Hm|].
  apply (@test_overlap_mask_gating lattice sphere_kind ball_box 1
           (mk_vec3 1 0 0) (dumbbell 4 1 1%N q_id) (dumbbell 4 1 2%N q_half_z)
           5%N dumbbell_shape dumbbell_shape).
  - exact Hm.
  - apply bar_members_in_range.
  - apply bar_members_in_range.
  - apply bar_hierarchy_any.
  - apply bar_hierarchy_any.
  - simpl; lia.
  - simpl; lia.
  - simpl; lia.
  - simpl; lia.
Defined.

Lemma lone_sphere_single_leaf (R box_radius : Z) (mask : N) (q : quat Z) :
  @single_leaf lattice sphere_kind ball_box (lone_sphere R box_radius mask q).
Proof.
  unfold single_leaf. simpl. repeat split. apply Permutation_refl.
Defined.

(** Two lone spheres, each in a box that bounds it: the answer is the
    scan. *)
Lemma test_overlap_single_leaf_spheres :
  @single_leaf lattice sphere_kind ball_box unit_sphere
  /\ fst (overlap_of_spheres 0 (mk_vec3 1 0 0) unit_sphere unit_sphere 0%N)
     = Finished (@all_pairs_scan lattice sphere_kind ball_box
                   (mk_vec3 1 0 0) unit_sphere unit_sphere).
Proof.
  split; [apply lone_sphere_single_leaf|].
  apply (@test_overlap_single_leaf lattice sphere_kind ball_box 0
           (mk_vec3 1 0 0) unit_sphere unit_sphere 0%N
           (lone_sphere_single_leaf 1 1 1%N q_id)
           (lone_sphere_single_leaf 1 1 1%N q_id)).
  intros _. reflexivity.
Defined.

(** C1.  Two unit spheres in exact contact: the one member pair is
    tested, the member test reports the degenerate contact by raising the
    counter it is handed from 0 to 1, the scan runs to its end and returns
    false, and the counter of the caller still reads 7 afterwards; the
    narrow phase hands every member test a counter of its own, set to 0,
    and drops it. *)
Theorem test_overlap_drops_degeneracy_count :
  overlap_of_spheres 1 (mk_vec3 2 0 0) unit_sphere unit_sphere 7%N
  = (Finished false, 7%N)
  /\ @masks_meet lattice sphere_kind ball_box unit_sphere unit_sphere 0 0 = true
  /\ @shape_test_overlap lattice sphere_kind
       (zsub (mpos (members unit_sphere) 0)
             (@effective_position lattice sphere_kind ball_box
                (mk_vec3 2 0 0) unit_sphere unit_sphere 0))
       (@transient_shape_a lattice sphere_kind ball_box unit_sphere unit_sphere 0)
       (@transient_shape_b lattice sphere_kind ball_box unit_sphere 0)
       0%N
     = (false, 1%N)
  /\ (forall fuel r a b err,
        snd (overlap_of_spheres fuel r a b err) = err).
Proof.
  split; [vm_compute; reflexivity|].
  split; [vm_compute; reflexivity|].
  split; [vm_compute; reflexivity|].
  intros. apply test_overlap_err_untouched.
Qed.

End LatticeFacts.

(** ** The floating-point instance at work *)

Module DoublesFacts.
Import PrimFloat Doubles.
Local Open Scope float_scope.

Local Abbreviation quarter_sphere := (sphere_at f_origin 0.25 0.5 fq_id).

(** Two spheres of diameter 0.5 whose centres are 0.5 apart touch:
    [0.25 * 4] and [(0.5 + 0.5)^2] are the same number, and the broad
    phase answers true. *)
Lemma check_circumsphere_overlap_at_contact :
  @check_circumsphere_overlap doubles fsphere_kind fball_box
    (mk_vec3 0.5 0 0) quarter_sphere quarter_sphere = true.
Proof.
  apply (proj2 (proj2
    (@check_circumsphere_overlap_rule doubles fsphere_kind fball_box
       (mk_vec3 0.5 0 0) quarter_sphere quarter_sphere))).
  - reflexivity.
  - reflexivity.
Defined.

(** Beyond contact the answer is false, and so it is on an offset
    that is not a number, which compares [<=] to nothing. *)
Example check_circumsphere_overlap_beyond_contact :
  @check_circumsphere_overlap doubles fsphere_kind fball_box
    (mk_vec3 0.625 0 0) quarter_sphere quarter_sphere = false
  /\ @check_circumsphere_overlap doubles fsphere_kind fball_box
       (mk_vec3 nan 0 0) quarter_sphere quarter_sphere = false.
Proof. split; reflexivity. Qed.

Local Abbreviation sphere_at_minus_zero :=
  (sphere_at (mk_vec3 minus_zero 0 0) 1 2 fq_id).

(** A lone sphere at [(-0, 0, 0)]: not the vector [(0, 0, 0)], but at the
    origin for [==]; the answer is the sphere's own flag, false. *)
Lemma hasOrientation_at_minus_zero :
  mpos (members sphere_at_minus_zero) 0 <> mk_vec3 0 0 0
  /\ @hasOrientation doubles fsphere_kind fball_box sphere_at_minus_zero
     = false.
Proof.
  split.
  - intros H. apply (f_equal (fun p => 1 / vx p <? 0)) in H.
    vm_compute in H. discriminate H.
  - destruct (@hasOrientation_cases doubles fsphere_kind fball_box
                sphere_at_minus_zero) as [_ [_ [_ Horigin]]].
    destruct Horigin as [Hflag _].
    + intros _. split; reflexivity.
    + apply Hflag; reflexivity.
Defined.

(** Off the origin the answer is true, whatever the member's flag. *)
Example hasOrientation_off_centre :
  @hasOrientation doubles fsphere_kind fball_box
    (sphere_at (mk_vec3 0 0.5 0) 1 3 fq_id) = true.
Proof. reflexivity. Qed.

(** Two spheres of radius 0.25, 0.375 apart, overlap; 0.5 apart they are in
    contact, which the sphere test reports as no overlap. *)
Example spheres_on_doubles :
  @test_overlap doubles fsphere_kind fball_box 0 (mk_vec3 0.375 0 0)
    quarter_sphere quarter_sphere 0%N = (Finished true, 0%N)
  /\ @test_overlap doubles fsphere_kind fball_box 0 (mk_vec3 0.5 0 0)
       quarter_sphere quarter_sphere 0%N = (Finished false, 0%N).
Proof. split; vm_compute; reflexivity. Qed.

End DoublesFacts.

(** * Further properties of the header *)

(** ** Loops *)

Lemma existsb_over_flat_map (A B : Type) (f : B -> bool) (g : A -> list B)
    (l : list A) :
  existsb f (flat_map g l) = existsb (fun x => existsb f (g x)) l.
Proof.
  induction l as [|x l IH]; simpl; [reflexivity|].
  now rewrite existsb_app, IH.
Qed.

(** The leaf loop returns true exactly when some traversal does and all
    the traversals before it returned false. *)
Lemma leaf_loop_true_iff (q : nat -> outcome) (start n : nat) :
  leaf_loop q start n = Finished true
  <-> exists k, start <= k < start + n /\ q k = Finished true
                /\ forall k', start <= k' < k -> q k' = Finished false.
Proof.
  revert start; induction n as [|n IH]; intros start; cbn [leaf_loop].
  - split; [discriminate|]. intros [k [Hk _]]. lia.
  - destruct (q start) as [[|]| | |] eqn:Hq.
    + split; [|reflexivity]. intros _. exists start.
      repeat split; [lia | lia | exact Hq | intros k' Hk'; lia].
    + rewrite IH. split.
      * intros [k [Hk [Htrue Hbefore]]]. exists k.
        repeat split; [lia | lia | exact Htrue|].
        intros k' Hk'. destruct (Nat.eq_dec k' start) as [->|Hne];
          [exact Hq | apply Hbefore; lia].
      * intros [k [Hk [Htrue Hbefore]]].
        assert (k <> start) by (intros ->; congruence).
        exists k. repeat split; [lia | lia | exact Htrue|].
        intros k' Hk'. apply Hbefore. lia.
    + split; [discriminate|]. intros [k [Hk [Htrue Hbefore]]].
      destruct (Nat.eq_dec k start) as [->|Hne]; [congruence|].
      rewrite (Hbefore start ltac:(lia)) in Hq. discriminate.
    + split; [discriminate|]. intros [k [Hk [Htrue Hbefore]]].
      destruct (Nat.eq_dec k start) as [->|Hne]; [congruence|].
      rewrite (Hbefore start ltac:(lia)) in Hq. discriminate.
    + split; [discriminate|]. intros [k [Hk [Htrue Hbefore]]].
      destruct (Nat.eq_dec k start) as [->|Hne]; [congruence|].
      rewrite (Hbefore start ltac:(lia)) in Hq. discriminate.
Qed.

Lemma leaf_loop_false_iff (q : nat -> outcome) (start n : nat) :
  leaf_loop q start n = Finished false
  <-> forall k, start <= k < start + n -> q k = Finished false.
Proof.
  revert start; induction n as [|n IH]; intros start; cbn [leaf_loop].
  - split; [intros _ k Hk; lia | reflexivity].
  - destruct (q start) as [[|]| | |] eqn:Hq.
    + split; [discriminate|]. intros H. rewrite (H start ltac:(lia)) in Hq.
      discriminate.
    + rewrite IH. split.
      * intros H k Hk. destruct (Nat.eq_dec k start) as [->|Hne];
          [exact Hq | apply H; lia].
      * intros H k Hk. apply H. lia.
    + split; [discriminate|]. intros H. rewrite (H start ltac:(lia)) in Hq.
      discriminate.
    + split; [discriminate|]. intros H. rewrite (H start ltac:(lia)) in Hq.
      discriminate.
    + split; [discriminate|]. intros H. rewrite (H start ltac:(lia)) in Hq.
      discriminate.
Qed.

(** ** The descent loop, continued *)

Section DescentMore.
Context {VM : VectorMath} {BB : BoundingBox VM}.
Variables (tree_b : GPUTree OBB) (obb_a : OBB) (narrow : nat -> bool).

Local Abbreviation lc := (child_l_of tree_b).
Local Abbreviation rc := (child_r_of tree_b).
Local Abbreviation ov := (overlap_with tree_b obb_a).
Local Abbreviation trav := (traverse tree_b obb_a).
Local Abbreviation hit := (leaf_hit tree_b obb_a narrow).
Local Abbreviation loop := (query_loop tree_b obb_a narrow).
Local Abbreviation sentinel := (getNumNodes tree_b).
Local Abbreviation spine := (left_spine tree_b).

(** The loop returns true only on a leaf whose box overlaps and whose
    narrow-phase test is positive. *)
Lemma query_loop_true_hit (fuel cur : nat) (stack : list nat) :
  loop fuel cur stack = Finished true ->
  exists child, ov child = true /\ isLeaf tree_b child = true
                /\ narrow child = true.
Proof.
  revert cur stack. induction fuel as [|fuel IH]; intros cur stack H;
    [discriminate H|].
  rewrite query_loop_S in H.
  destruct (query_step tree_b obb_a narrow cur stack)
    as [|cur' stack'| |] eqn:Hstep; try discriminate H.
  - apply (proj1 (query_step_hit tree_b obb_a narrow cur stack)) in Hstep.
    destruct Hstep as [Hh|Hh]; unfold leaf_hit in Hh;
      apply andb_prop in Hh; destruct Hh as [Hh Hn];
      apply andb_prop in Hh; destruct Hh as [Ho Hl]; eauto.
  - destruct (cur' =? sentinel); [discriminate H | eauto].
Qed.

Lemma traverse_no_hit (child : nat) : trav child = true -> hit child = false.
Proof.
  unfold traverse, leaf_hit. intros H. apply andb_prop in H.
  destruct H as [-> H]. apply negb_true_iff in H. rewrite H. reflexivity.
Qed.

(** Descending a left spine whose nodes all have two internal overlapping
    children pushes once per node; the push at the 64th node finds the
    array full. *)
Lemma query_loop_overruns (m : nat) :
  deep_left_spine tree_b obb_a stack_capacity ->
  forall (k : nat) (stack : list nat) (fuel : nat),
    k + m = 63 -> length stack = S k -> m < fuel ->
    loop fuel (spine k) stack = StackOverflow.
Proof.
  intros Hdeep. induction m as [|m IH]; intros k stack fuel Hk Hlen Hfuel;
    (destruct fuel as [|fuel]; [lia|]);
    destruct (Hdeep k ltac:(unfold stack_capacity; lia)) as [Tl [Tr Hne]];
    rewrite query_loop_S; unfold query_step;
    rewrite (traverse_no_hit _ Tl), (traverse_no_hit _ Tr), Tl, Tr;
    cbn [negb andb].
  - destruct (Nat.leb_spec stack_capacity (length stack)) as [_|Hroom];
      [reflexivity | unfold stack_capacity in Hroom; lia].
  - destruct (Nat.leb_spec stack_capacity (length stack)) as [Hfull|_];
      [unfold stack_capacity in Hfull; lia|].
    apply Nat.eqb_neq in Hne. rewrite Hne.
    apply (IH (S k) (rc (spine k) :: stack) fuel);
      [lia | cbn [length]; lia | lia].
Qed.

(** With bounding boxes the descent finds every positive leaf. *)
Lemma visit_bounding (t : btree) :
  bounding tree_b obb_a narrow t ->
  visit tree_b obb_a narrow t = existsb narrow (leaves_of t).
Proof.
  induction t as [id|id l IHl r IHr]; intros Hb.
  - cbn in *. rewrite orb_false_r.
    destruct (ov id) eqn:Hov; [reflexivity|]. cbn [andb].
    symmetry. apply Hb. reflexivity.
  - destruct Hb as [Hroot [Hl Hr]].
    cbn [visit node_id]. rewrite (IHl Hl), (IHr Hr).
    cbn [leaves_of]. rewrite existsb_app.
    destruct (ov id) eqn:Hov; [reflexivity|]. cbn [andb].
    rewrite <- existsb_app. symmetry. apply existsb_false_in.
    intros leaf Hleaf. apply (Hroot eq_refl leaf Hleaf).
Qed.

Lemma reached_bounding (t : btree) :
  bounding tree_b obb_a narrow t ->
  reached tree_b obb_a narrow t = existsb narrow (leaves_of t).
Proof.
  intros Hb. unfold reached. destruct t as [id|id l r]; cbn [is_internal].
  - now apply visit_bounding.
  - destruct Hb as [_ [Hl Hr]]. cbn [below leaves_of].
    rewrite (visit_bounding l Hl), (visit_bounding r Hr).
    now rewrite existsb_app.
Qed.

End DescentMore.

(** ** Traversals and dispatcher, continued *)

Section TraversalMore.
Context {VM : VectorMath} {MS : MemberShape VM} {BB : BoundingBox VM}.

(** *** Edge cases *)

(** X5.  When either hierarchy has no leaf, [test_overlap] returns false
    at once: the driving side is the one with fewer leaves, and its loop
    body is never entered, whatever the other body is. *)
Theorem test_overlap_no_leaves
    (fuel : nat) (r_ab : vec3 Scalar) (a b : union) (err : N)
    (none : getNumLeaves (tree (members a)) = 0
            \/ getNumLeaves (tree (members b)) = 0) :
  test_overlap fuel r_ab a b err = (Finished false, err).
Proof.
  rewrite test_overlap_unfold. unfold driving_leaves, a_drives.
  destruct (Nat.leb_spec (getNumLeaves (tree (members a)))
                         (getNumLeaves (tree (members b)))) as [Hle|Hlt].
  - replace (getNumLeaves (tree (members a))) with 0 by lia. reflexivity.
  - replace (getNumLeaves (tree (members b))) with 0 by lia. reflexivity.
Qed.

(** X10.  The narrow phase on a node that lists no member, on either
    side, is false: no member test is invoked. *)
Theorem narrow_phase_empty_leaf
    (dr : vec3 Scalar) (a b : union) (cur_node_a cur_node_b : nat)
    (empty : getNumParticles (tree (members a)) cur_node_a = 0
             \/ getNumParticles (tree (members b)) cur_node_b = 0) :
  test_narrow_phase_overlap dr a b cur_node_a cur_node_b = false.
Proof.
  rewrite narrow_phase_scan. unfold narrow_phase_spec.
  apply existsb_false_in. intros [i j] Hin. apply in_prod_iff in Hin.
  destruct Hin as [Hi Hj]. unfold leaf_members in Hi, Hj.
  destruct empty as [E|E]; rewrite E in *; contradiction.
Qed.

(** *** The stack *)

(** X2.  Past the documented depth the stack is overrun.  When the first
    64 nodes on the path of left children each have two internal children
    whose boxes overlap the box of [a]'s node, the traversal pushes a
    right child at each of them, and the 64th push writes past the
    64-entry array: there is no check. *)
Theorem query_node_overruns_stack
    (fuel cur_node_a : nat) (r_ab : vec3 Scalar) (a b : union)
    (several : (getNumNodes (tree (members b)) =? 1) = false)
    (deep : deep_left_spine (tree (members b))
              (box_in_frame_of r_ab a b cur_node_a) 64)
    (enough : 64 <= fuel) :
  query_node fuel cur_node_a r_ab a b = StackOverflow.
Proof.
  unfold query_node. rewrite several.
  apply (query_loop_overruns (tree (members b))
           (box_in_frame_of r_ab a b cur_node_a) _ 63 deep 0
           [getNumNodes (tree (members b))] fuel); [reflexivity | reflexivity | lia].
Qed.

(** *** What a traversal computes *)

(** X8.  On a sound hierarchy no deeper than the stack, the loop with its
    explicit stack computes the recursive descent: from the root's
    children down, a node is entered when its box overlaps the box of
    [a]'s node, and the answer is whether a leaf entered this way has a
    positive narrow-phase test.  A hierarchy of one node has its root box
    tested instead. *)
Theorem query_node_computes_descent
    (cur_node_a : nat) (r_ab : vec3 Scalar) (a b : union)
    (t : btree) (fuel : nat)
    (sound : sound_hierarchy (tree (members b)) t)
    (depth : height t <= 64)
    (enough : internal_nodes t <= fuel) :
  query_node fuel cur_node_a r_ab a b
  = Finished (reached (tree (members b)) (box_in_frame_of r_ab a b cur_node_a)
                (fun child => test_narrow_phase_overlap r_ab a b cur_node_a child)
                t).
Proof. apply query_node_result; assumption. Qed.

Lemma query_node_true_pair
    (fuel cur_node_a : nat) (r_ab : vec3 Scalar) (a b : union) :
  query_node fuel cur_node_a r_ab a b = Finished true ->
  exists node_b,
    obb_overlap (box_in_frame_of r_ab a b cur_node_a)
                (getOBB (tree (members b)) node_b) = true
    /\ test_narrow_phase_overlap r_ab a b cur_node_a node_b = true.
Proof.
  unfold query_node.
  destruct (getNumNodes (tree (members b)) =? 1).
  - intros H. injection H as H. apply andb_prop in H. exists 0. exact H.
  - intros H. apply query_loop_true_hit in H.
    destruct H as [child [Ho [_ Hn]]]. exists child. split; assumption.
Qed.

Lemma narrow_phase_true_scan
    (r_ab : vec3 Scalar) (a b : union) (node_a node_b : nat) :
  members_in_range a -> members_in_range b ->
  test_narrow_phase_overlap r_ab a b node_a node_b = true ->
  all_pairs_scan r_ab a b = true.
Proof.
  intros Ha Hb H. rewrite narrow_phase_scan in H. unfold narrow_phase_spec in H.
  apply existsb_exists in H. destruct H as [[i j] [Hin Hp]].
  apply in_prod_iff in Hin. destruct Hin as [Hi Hj].
  unfold all_pairs_scan. apply existsb_exists. exists (i, j).
  split; [|exact Hp]. apply in_prod; apply in_seq.
  - pose proof (leaf_members_in_range a node_a i Ha Hi). lia.
  - pose proof (leaf_members_in_range b node_b j Hb Hj). lia.
Qed.

(** X3.  [test_overlap] invents no overlap.  Whatever the hierarchies and
    their boxes are, when it returns true some pair of members with
    meeting masks passes the member test, in the frame of the body that
    does not drive: the exhaustive scan is true as well. *)
Theorem test_overlap_no_false_positive
    (fuel : nat) (r_ab : vec3 Scalar) (a b : union) (err : N)
    (range_a : members_in_range a) (range_b : members_in_range b)
    (positive : fst (test_overlap fuel r_ab a b err) = Finished true) :
  (a_drives a b = true /\ all_pairs_scan r_ab a b = true)
  \/ (a_drives a b = false /\ all_pairs_scan (vneg r_ab) b a = true).
Proof.
  rewrite test_overlap_unfold in positive. cbn [fst] in positive.
  apply leaf_loop_true_iff in positive.
  destruct positive as [k [_ [Hk _]]]. unfold leaf_traversal in Hk.
  destruct (a_drives a b); [left | right]; (split; [reflexivity|]);
    apply query_node_true_pair in Hk; destruct Hk as [node [_ Hn]];
    eapply narrow_phase_true_scan; eassumption.
Qed.

(** X11.  The dispatcher stops at the first leaf whose traversal returns
    true: it returns true exactly when some leaf's traversal does and the
    traversals of all leaves before it returned false, whatever the
    traversals of the later leaves would do; and it returns false exactly
    when every leaf's traversal returns false. *)
Theorem test_overlap_first_positive_leaf
    (fuel : nat) (r_ab : vec3 Scalar) (a b : union) (err : N) :
  (fst (test_overlap fuel r_ab a b err) = Finished true
   <-> exists k, k < driving_leaves a b
         /\ leaf_traversal fuel r_ab a b k = Finished true
         /\ forall k', k' < k ->
              leaf_traversal fuel r_ab a b k' = Finished false)
  /\ (fst (test_overlap fuel r_ab a b err) = Finished false
      <-> forall k, k < driving_leaves a b ->
            leaf_traversal fuel r_ab a b k = Finished false).
Proof.
  rewrite test_overlap_unfold. cbn [fst].
  rewrite leaf_loop_true_iff, leaf_loop_false_iff. split; split.
  - intros [k [Hk [Ht Hb]]]. exists k.
    repeat split; [lia | exact Ht | intros k' Hk'; apply Hb; lia].
  - intros [k [Hk [Ht Hb]]]. exists k.
    repeat split; [lia | lia | exact Ht | intros k' Hk'; apply Hb; lia].
  - intros H k Hk. apply H. lia.
  - intros H k Hk. apply H. lia.
Qed.

(** *** Pruning against the scans *)

(** X9.  With nested boxes the pruning through the internal nodes loses
    no leaf pair: when [a] drives, [test_overlap] answers whether some
    leaf of [a] and some leaf of [b] have overlapping boxes and a positive
    narrow-phase test. *)
Theorem test_overlap_scans_leaf_pairs
    (fuel : nat) (r_ab : vec3 Scalar) (a b : union) (err : N) (ta tb : btree)
    (drives : getNumLeaves (tree (members a))
              <= getNumLeaves (tree (members b)))
    (sound_a : sound_hierarchy (tree (members a)) ta)
    (sound_b : sound_hierarchy (tree (members b)) tb)
    (depth : height tb <= 64)
    (enough : internal_nodes tb <= fuel)
    (nest : boxes_nested r_ab a b ta tb) :
  fst (test_overlap fuel r_ab a b err)
  = Finished (leaf_pairs_scan r_ab a b ta tb).
Proof.
  apply test_overlap_leaf_pairs; auto.
  unfold a_drives. now apply Nat.leb_le.
Qed.

Lemma query_node_scans_leaves
    (cur_node_a : nat) (r_ab : vec3 Scalar) (a b : union)
    (t : btree) (fuel : nat) :
  sound_hierarchy (tree (members b)) t ->
  height t <= stack_capacity ->
  internal_nodes t <= fuel ->
  bounding (tree (members b)) (box_in_frame_of r_ab a b cur_node_a)
    (fun child => test_narrow_phase_overlap r_ab a b cur_node_a child) t ->
  query_node fuel cur_node_a r_ab a b
  = Finished (existsb (fun leaf_b =>
                 test_narrow_phase_overlap r_ab a b cur_node_a leaf_b)
                (leaves_of t)).
Proof.
  intros Hs Hh Hf Hb.
  rewrite (query_node_result cur_node_a r_ab a b t fuel Hs Hh Hf).
  now rewrite reached_bounding.
Qed.

(** The leaves of [a] one after the other against [b], as the dispatcher
    runs them when [a] drives. *)
Lemma driver_exhaustive
    (fuel : nat) (r_ab : vec3 Scalar) (a b : union) (ta tb : btree) :
  sound_hierarchy (tree (members a)) ta ->
  sound_hierarchy (tree (members b)) tb ->
  height tb <= stack_capacity ->
  internal_nodes tb <= fuel ->
  boxes_bound r_ab a b ta tb ->
  leaves_partition a ta -> leaves_partition b tb ->
  leaf_loop (fun k => query_node fuel (getLeafNode (tree (members a)) k) r_ab a b)
            0 (getNumLeaves (tree (members a)))
  = Finished (all_pairs_scan r_ab a b).
Proof.
  intros Ha Hb Hh Hfuel Hbound Hpa Hpb.
  destruct Ha as [_ [_ [_ Hperm]]].
  assert (Hrun : forall k, k < getNumLeaves (tree (members a)) ->
            query_node fuel (getLeafNode (tree (members a)) k) r_ab a b
            = Finished (existsb (fun leaf_b =>
                 test_narrow_phase_overlap r_ab a b
                   (getLeafNode (tree (members a)) k) leaf_b) (leaves_of tb))).
  { intros k Hk. apply query_node_scans_leaves; auto. apply Hbound.
    apply (Permutation_in _ Hperm). apply in_map. apply in_seq. lia. }
  rewrite leaf_loop_all_finished
    by (intros k Hk; rewrite Hrun by lia; eexists; reflexivity).
  f_equal.
  transitivity
    (existsb (fun leaf_a =>
       existsb (fun leaf_b => test_narrow_phase_overlap r_ab a b leaf_a leaf_b)
               (leaves_of tb)) (leaves_of ta)).
  { rewrite <- (existsb_Permutation _ _ _ _ Hperm), existsb_through_map.
    apply existsb_ext_in. intros k Hk. apply in_seq in Hk.
    rewrite Hrun by lia.
    destruct (existsb _ (leaves_of tb)); reflexivity. }
  unfold all_pairs_scan. rewrite existsb_list_prod.
  rewrite <- (existsb_Permutation _ _ _ _ Hpa), existsb_over_flat_map.
  apply existsb_ext_in. intros leaf_a _.
  transitivity
    (existsb (fun i =>
       existsb (fun leaf_b =>
          existsb (fun j => pair_overlap r_ab a b i j)
                  (leaf_members (tree (members b)) leaf_b)) (leaves_of tb))
       (leaf_members (tree (members a)) leaf_a)).
  { rewrite existsb_swap. apply existsb_ext_in. intros leaf_b _.
    rewrite narrow_phase_scan. unfold narrow_phase_spec.
    rewrite existsb_list_prod. reflexivity. }
  apply existsb_ext_in. intros i _.
  rewrite <- (existsb_Permutation _ _ _ _ Hpb), existsb_over_flat_map.
  reflexivity.
Qed.

(** X4.  With sound hierarchies whose leaves hold every member once and
    whose boxes bound what is under them, the pruning is lossless:
    [test_overlap] returns what the exhaustive scan of all member pairs
    returns, carried out in the frame of the body that does not drive. *)
Theorem test_overlap_exhaustive
    (fuel : nat) (r_ab : vec3 Scalar) (a b : union) (err : N) (ta tb : btree)
    (sound_a : sound_hierarchy (tree (members a)) ta)
    (sound_b : sound_hierarchy (tree (members b)) tb)
    (depth_a : height ta <= 64) (depth_b : height tb <= 64)
    (enough_a : internal_nodes ta <= fuel)
    (enough_b : internal_nodes tb <= fuel)
    (all_a : leaves_partition a ta) (all_b : leaves_partition b tb) :
  (a_drives a b = true -> boxes_bound r_ab a b ta tb ->
   fst (test_overlap fuel r_ab a b err) = Finished (all_pairs_scan r_ab a b))
  /\ (a_drives a b = false -> boxes_bound (vneg r_ab) b a tb ta ->
      fst (test_overlap fuel r_ab a b err)
      = Finished (all_pairs_scan (vneg r_ab) b a)).
Proof.
  split; intros Hd Hbound; unfold test_overlap; fold (a_drives a b);
    rewrite Hd; cbn [fst]; rewrite Nat.sub_0_r.
  - apply driver_exhaustive with ta tb; assumption.
  - apply driver_exhaustive with tb ta; assumption.
Qed.

(** *** One member at the centre *)

Lemma test_overlap_single_leaf_narrow
    (fuel : nat) (r_ab : vec3 Scalar) (a b : union) (err : N) :
  single_leaf a -> single_leaf b ->
  fst (test_overlap fuel r_ab a b err)
  = Finished (obb_overlap (box_in_frame_of r_ab a b 0)
                          (getOBB (tree (members b)) 0)
              && all_pairs_scan r_ab a b).
Proof.
  intros one_a one_b.
  rewrite <- (narrow_phase_single_leaf r_ab a b one_a one_b).
  destruct one_a as [_ [La [Za _]]]. destruct one_b as [Nb [Lb _]].
  unfold test_overlap. rewrite La, Lb. cbn [Nat.leb Nat.sub leaf_loop fst].
  rewrite Za. unfold query_node. rewrite Nb. cbn [Nat.eqb].
  unfold box_in_frame_of, frame_change.
  destruct (obb_overlap _ _ && _); reflexivity.
Qed.

(** X6.  A composite of one member at its centre, in a hierarchy of one
    leaf, reduces to its member: against another such composite,
    [test_overlap] is the box test together with one call of the member
    test, on the offset rotated into [b]'s frame, provided the masks
    meet.  The two vector identities are those of any rotation and of
    vector subtraction. *)
Theorem test_overlap_single_member
    (fuel : nat) (r_ab : vec3 Scalar) (a b : union) (err : N)
    (one_a : single_leaf a) (one_b : single_leaf b)
    (count_a : N_members (members a) = 1)
    (count_b : N_members (members b) = 1)
    (centre_a : mpos (members a) 0 = vzero)
    (centre_b : mpos (members b) 0 = vzero)
    (rotate_zero : rotate (frame_change a b) vzero = vzero)
    (sub_sub : vsub vzero (vsub vzero (local_offset r_ab b))
               = local_offset r_ab b) :
  fst (test_overlap fuel r_ab a b err)
  = Finished
      (obb_overlap (box_in_frame_of r_ab a b 0) (getOBB (tree (members b)) 0)
       && (masks_meet a b 0 0
           && fst (shape_test_overlap (local_offset r_ab b)
                     (transient_shape_a a b 0) (transient_shape_b b 0) 0%N))).
Proof.
  rewrite (test_overlap_single_leaf_narrow fuel r_ab a b err one_a one_b).
  unfold all_pairs_scan. rewrite count_a, count_b.
  cbn [seq list_prod map app existsb fst snd]. rewrite orb_false_r.
  unfold pair_overlap, effective_position.
  rewrite centre_a, centre_b, rotate_zero, sub_sub. reflexivity.
Qed.

(** *** Broad phase *)

(** X7.  The broad phase does not depend on the order of the two bodies:
    exchanging them and negating the offset gives the same answer, the
    squared length of a vector being that of its negation and the sum of
    the two diameters being commutative. *)
Theorem check_circumsphere_overlap_exchange
    (r_ab : vec3 Scalar) (a b : union)
    (dot_neg : dot (vneg r_ab) (vneg r_ab) = dot r_ab r_ab)
    (add_comm : s_add (diameter (members a)) (diameter (members b))
                = s_add (diameter (members b)) (diameter (members a))) :
  check_circumsphere_overlap r_ab a b
  = check_circumsphere_overlap (vneg r_ab) b a.
Proof.
  unfold check_circumsphere_overlap, getCircumsphereDiameter.
  rewrite dot_neg, add_comm. reflexivity.
Qed.

End TraversalMore.

(** ** Termination and pruning of the loop *)

Section DescentTermination.
Context {VM : VectorMath} {BB : BoundingBox VM}.
Variables (tree_b : GPUTree OBB) (obb_a : OBB) (narrow : nat -> bool).

Local Abbreviation lc := (child_l_of tree_b).
Local Abbreviation rc := (child_r_of tree_b).
Local Abbreviation ov := (overlap_with tree_b obb_a).
Local Abbreviation trav := (traverse tree_b obb_a).
Local Abbreviation hit := (leaf_hit tree_b obb_a narrow).
Local Abbreviation loop := (query_loop tree_b obb_a narrow).
Local Abbreviation sentinel := (getNumNodes tree_b).
Local Abbreviation resume_b := (resume tree_b obb_a narrow).

(** Below an internal node of a finite tree, of any depth, the loop
    returns, overruns the stack, or comes back to pop the stack it
    started with; it does so within one pass per internal node. *)
Lemma descent_ends (t : btree) :
  unfolds tree_b t -> is_internal t = true ->
  forall (stack : list nat) (fuel : nat),
    stack <> [] ->
    (exists b, loop (internal_nodes t + fuel) (node_id t) stack = Finished b)
    \/ loop (internal_nodes t + fuel) (node_id t) stack = StackOverflow
    \/ (exists fuel', fuel <= fuel'
          /\ loop (internal_nodes t + fuel) (node_id t) stack
             = resume_b fuel' stack).
Proof.
  induction t as [id|id l IHl r IHr]; intros Hu Hint stack fuel Hne.
  - discriminate Hint.
  - destruct Hu as [_ [Hlc [Hrc [Hul Hur]]]].
    cbn [internal_nodes node_id] in *.
    cbn [Nat.add]. rewrite query_loop_S.
    unfold query_step, child_r_of, child_l_of. rewrite Hlc, Hrc.
    destruct (hit (node_id l)); [left; eexists; reflexivity|].
    destruct (hit (node_id r)); [left; eexists; reflexivity|].
    destruct (trav (node_id l)) eqn:Tl, (trav (node_id r)) eqn:Tr;
      cbn [negb andb].
    + destruct (stack_capacity <=? length stack); [right; left; reflexivity|].
      destruct (node_id l =? sentinel); [left; eexists; reflexivity|].
      rewrite <- Nat.add_assoc.
      destruct (IHl Hul (traverse_internal tree_b obb_a narrow l Hul Tl)
                    (node_id r :: stack) (internal_nodes r + fuel)
                    ltac:(discriminate))
        as [[b Hb]|[Hb|[fuel' [Hf Hb]]]].
      * left. exists b. exact Hb.
      * right. left. exact Hb.
      * rewrite Hb. cbn [resume_b].
        destruct (node_id r =? sentinel); [left; eexists; reflexivity|].
        replace fuel' with (internal_nodes r + (fuel' - internal_nodes r))
          by lia.
        destruct (IHr Hur (traverse_internal tree_b obb_a narrow r Hur Tr) stack
                      (fuel' - internal_nodes r) Hne)
          as [[b Hb']|[Hb'|[fuel'' [Hf' Hb']]]].
        -- left. exists b. exact Hb'.
        -- right. left. exact Hb'.
        -- right. right. exists fuel''. split; [lia | exact Hb'].
    + destruct (node_id l =? sentinel); [left; eexists; reflexivity|].
      rewrite <- Nat.add_assoc.
      destruct (IHl Hul (traverse_internal tree_b obb_a narrow l Hul Tl) stack
                    (internal_nodes r + fuel) Hne)
        as [[b Hb]|[Hb|[fuel' [Hf Hb]]]].
      * left. exists b. exact Hb.
      * right. left. exact Hb.
      * right. right. exists fuel'. split; [lia | exact Hb].
    + destruct (node_id r =? sentinel); [left; eexists; reflexivity|].
      replace (internal_nodes l + internal_nodes r + fuel)
        with (internal_nodes r + (internal_nodes l + fuel)) by lia.
      destruct (IHr Hur (traverse_internal tree_b obb_a narrow r Hur Tr) stack
                    (internal_nodes l + fuel) Hne)
        as [[b Hb]|[Hb|[fuel' [Hf Hb]]]].
      * left. exists b. exact Hb.
      * right. left. exact Hb.
      * right. right. exists fuel'. split; [lia | exact Hb].
    + destruct stack as [|top rest]; [contradiction|].
      right. right. exists (internal_nodes l + internal_nodes r + fuel).
      split; [lia | reflexivity].
Qed.

Lemma query_loop_ends (t : btree) (fuel : nat) :
  node_id t = 0 -> unfolds tree_b t -> is_internal t = true ->
  internal_nodes t <= fuel ->
  (exists b, loop fuel 0 [sentinel] = Finished b)
  \/ loop fuel 0 [sentinel] = StackOverflow.
Proof.
  intros Hroot Hu Hint Hfuel.
  replace fuel with (internal_nodes t + (fuel - internal_nodes t)) by lia.
  rewrite <- Hroot.
  destruct (descent_ends t Hu Hint [sentinel] (fuel - internal_nodes t)
              ltac:(discriminate))
    as [[b Hb]|[Hb|[fuel' [_ Hb]]]].
  - left. exists b. exact Hb.
  - right. exact Hb.
  - left. exists false. rewrite Hb. cbn [resume_b]. now rewrite Nat.eqb_refl.
Qed.

Variable narrow' : nat -> bool.

(** X12.  The loop reads the narrow-phase test at the leaves whose box
    overlaps, and nowhere else: two narrow-phase tests that agree there
    give the same run, returned value and stack outcome alike.  The
    members of a leaf whose box does not overlap are never tested. *)
Theorem query_loop_tests_overlapping_leaves_only
    (agree : forall child, ov child = true -> isLeaf tree_b child = true ->
                narrow child = narrow' child)
    (fuel cur : nat) (stack : list nat) :
  query_loop tree_b obb_a narrow fuel cur stack
  = query_loop tree_b obb_a narrow' fuel cur stack.
Proof.
  assert (Hhit : forall child,
            leaf_hit tree_b obb_a narrow child
            = leaf_hit tree_b obb_a narrow' child).
  { intros child. unfold leaf_hit.
    destruct (ov child) eqn:Ho; [|reflexivity].
    destruct (isLeaf tree_b child) eqn:Hl; [|reflexivity].
    cbn [andb]. apply agree; assumption. }
  revert cur stack. induction fuel as [|fuel IH]; intros cur stack;
    [reflexivity|].
  rewrite !query_loop_S. unfold query_step. rewrite !Hhit.
  destruct (leaf_hit tree_b obb_a narrow' (lc cur)); [reflexivity|].
  destruct (leaf_hit tree_b obb_a narrow' (rc cur)); [reflexivity|].
  destruct (trav (lc cur)), (trav (rc cur)); cbn [negb andb].
  - destruct (stack_capacity <=? length stack); [reflexivity|].
    destruct (lc cur =? sentinel); [reflexivity | apply IH].
  - destruct (lc cur =? sentinel); [reflexivity | apply IH].
  - destruct (rc cur =? sentinel); [reflexivity | apply IH].
  - destruct stack as [|top rest]; [reflexivity|].
    destruct (top =? sentinel); [reflexivity | apply IH].
Qed.

End DescentTermination.

Section TraversalTermination.
Context {VM : VectorMath} {MS : MemberShape VM} {BB : BoundingBox VM}.

(** X13.  On a finite hierarchy of any depth a traversal ends: within one
    pass of the loop per internal node it has returned a boolean or
    overrun the stack; it does not run on. *)
Theorem query_node_ends
    (cur_node_a : nat) (r_ab : vec3 Scalar) (a b : union)
    (t : btree) (fuel : nat)
    (shape : hierarchy (tree (members b)) t)
    (enough : internal_nodes t <= fuel) :
  (exists res, query_node fuel cur_node_a r_ab a b = Finished res)
  \/ query_node fuel cur_node_a r_ab a b = StackOverflow.
Proof.
  destruct shape as [Hroot [Hu Hone]]. unfold query_node.
  destruct (getNumNodes (tree (members b)) =? 1) eqn:Hn.
  - left. eexists. reflexivity.
  - apply query_loop_ends with t; auto.
    destruct (is_internal t); [reflexivity|].
    apply Nat.eqb_neq in Hn. exfalso. apply Hn. apply Hone. reflexivity.
Qed.

(** X1.  No traversal reads below its stack, on any hierarchy, sound or
    not, and however long it runs: the sentinel stays at the bottom, and
    the pop that takes it ends the loop. *)
Theorem query_node_pop_finds_entry
    (fuel cur_node_a : nat) (r_ab : vec3 Scalar) (a b : union) :
  query_node fuel cur_node_a r_ab a b <> StackUnderflow.
Proof.
  unfold query_node.
  destruct (getNumNodes (tree (members b)) =? 1); [discriminate|].
  apply (query_loop_never_underflows (tree (members b)) _ _ fuel 0 []).
Qed.

End TraversalTermination.

(** ** The further properties on concrete bodies *)

Module LatticeMore.
Import Lattice.
Local Open Scope Z_scope.

Local Abbreviation unit_sphere := (lone_sphere 1 1 1%N q_id).
Local Abbreviation bar := (dumbbell 4 1 1%N q_id).
Local Abbreviation bar_turned := (dumbbell 4 1 1%N q_half_z).
Local Abbreviation overlap_of_spheres :=
  (@test_overlap lattice sphere_kind ball_box).

Local Ltac settle :=
  first [ vm_compute; reflexivity
        | let H := fresh in intros H; vm_compute in H; discriminate H ].

(** A body without leaves overlaps nothing. *)
Lemma hollow_overlaps_nothing :
  overlap_of_spheres 0 origin hollow bar 3%N = (Finished false, 3%N)
  /\ overlap_of_spheres 0 origin bar hollow 3%N = (Finished false, 3%N).
Proof.
  split.
  - apply (@test_overlap_no_leaves lattice sphere_kind ball_box 0 origin
             hollow bar 3%N). left. reflexivity.
  - apply (@test_overlap_no_leaves lattice sphere_kind ball_box 0 origin
             bar hollow 3%N). right. reflexivity.
Defined.

(** The root of the dumbbell's hierarchy lists no member. *)
Lemma narrow_phase_at_bar_root :
  @test_narrow_phase_overlap lattice sphere_kind ball_box origin bar bar 0 1
  = false.
Proof.
  apply (@narrow_phase_empty_leaf lattice sphere_kind ball_box origin bar bar
           0%nat 1%nat). left. reflexivity.
Defined.

Lemma bottomless_spine (k : nat) :
  @left_spine lattice ball_box bottomless_tree k = (2 * k)%nat.
Proof.
  induction k as [|k IH]; [reflexivity|].
  cbn [left_spine]. rewrite IH. cbn [getLeftChild bottomless_tree]. lia.
Defined.

Lemma bottomless_is_deep :
  @deep_left_spine lattice ball_box bottomless_tree
    (@box_in_frame_of lattice sphere_kind ball_box origin unit_sphere
       bottomless 0) 64.
Proof.
  intros k Hk. split; [reflexivity|]. split; [reflexivity|].
  unfold child_l_of. rewrite bottomless_spine.
  cbn [getLeftChild getNumNodes bottomless_tree]. lia.
Defined.

(** The bottomless hierarchy overruns the stack. *)
Lemma bottomless_overrun :
  @query_node lattice sphere_kind ball_box 64 0 origin unit_sphere bottomless
  = StackOverflow.
Proof.
  apply (@query_node_overruns_stack lattice sphere_kind ball_box 64 0%nat
           origin unit_sphere bottomless).
  - reflexivity.
  - exact bottomless_is_deep.
  - lia.
Defined.

(** A traversal of the dumbbell's hierarchy is the descent of its tree,
    and it ends. *)
Lemma query_node_descends_bar :
  @query_node lattice sphere_kind ball_box 1 1 (mk_vec3 5 0 0) bar bar
  = Finished
      (@reached lattice ball_box (tree (members bar))
         (@box_in_frame_of lattice sphere_kind ball_box (mk_vec3 5 0 0)
            bar bar 1)
         (fun child =>
            @test_narrow_phase_overlap lattice sphere_kind ball_box
              (mk_vec3 5 0 0) bar bar 1 child)
         dumbbell_shape).
Proof.
  apply (@query_node_computes_descent lattice sphere_kind ball_box 1%nat
           (mk_vec3 5 0 0) bar bar dumbbell_shape 1%nat).
  - apply LatticeFacts.bar_sound_hierarchy.
  - simpl; lia.
  - simpl; lia.
Defined.

Lemma query_node_on_bar_ends :
  (exists res,
     @query_node lattice sphere_kind ball_box 1 1 (mk_vec3 5 0 0) bar bar
     = Finished res)
  \/ @query_node lattice sphere_kind ball_box 1 1 (mk_vec3 5 0 0) bar bar
     = StackOverflow.
Proof.
  apply (@query_node_ends lattice sphere_kind ball_box 1%nat (mk_vec3 5 0 0)
           bar bar dumbbell_shape 1%nat).
  - apply LatticeFacts.bar_hierarchy_any.
  - simpl; lia.
Defined.

(** Two dumbbells 5 apart: the overlap reported is one the scan finds. *)
Lemma bars_overlap_is_real :
  fst (overlap_of_spheres 1 (mk_vec3 5 0 0) bar bar 0%N) = Finished true
  /\ @all_pairs_scan lattice sphere_kind ball_box (mk_vec3 5 0 0) bar bar
     = true.
Proof.
  assert (Hpos : fst (overlap_of_spheres 1 (mk_vec3 5 0 0) bar bar 0%N)
                 = Finished true) by (vm_compute; reflexivity).
  split; [exact Hpos|].
  destruct (@test_overlap_no_false_positive lattice sphere_kind ball_box 1
              (mk_vec3 5 0 0) bar bar 0%N
              (LatticeFacts.bar_members_in_range 1%N q_id)
              (LatticeFacts.bar_members_in_range 1%N q_id) Hpos)
    as [[_ H]|[Hd _]].
  - exact H.
  - vm_compute in Hd. discriminate Hd.
Defined.

(** A dumbbell against a turned dumbbell, 9 apart: the scan of the four
    leaf pairs. *)
Lemma bars_leaf_pairs :
  fst (overlap_of_spheres 1 (mk_vec3 9 0 0) bar bar_turned 0%N)
  = Finished (@leaf_pairs_scan lattice sphere_kind ball_box (mk_vec3 9 0 0)
                bar bar_turned dumbbell_shape dumbbell_shape).
Proof.
  apply (@test_overlap_scans_leaf_pairs lattice sphere_kind ball_box 1
           (mk_vec3 9 0 0) bar bar_turned 0%N dumbbell_shape dumbbell_shape).
  - simpl; lia.
  - apply LatticeFacts.bar_sound_hierarchy.
  - apply LatticeFacts.bar_sound_hierarchy.
  - simpl; lia.
  - simpl; lia.
  - exact LatticeFacts.bars_nested_forth.
Defined.

Lemma sphere_sound_hierarchy :
  sound_hierarchy (tree (members unit_sphere)) (BLeaf 0).
Proof.
  unfold sound_hierarchy, hierarchy. simpl.
  repeat split; try reflexivity.
  intros id [<-|[]]. lia.
Defined.

Lemma bars_boxes_bound :
  @boxes_bound lattice sphere_kind ball_box (mk_vec3 9 0 0)
    bar bar_turned dumbbell_shape dumbbell_shape.
Proof.
  intros leaf_a [<-|[<-|[]]]; (split; [|split]);
    try settle; intros _ leaf [<-|[<-|[]]]; vm_compute; reflexivity.
Defined.

Lemma bar_sphere_boxes_bound :
  @boxes_bound lattice sphere_kind ball_box (zneg (mk_vec3 3 0 0))
    unit_sphere bar (BLeaf 0) dumbbell_shape.
Proof.
  intros leaf_a [<-|[]]; (split; [|split]);
    try settle; intros _ leaf [<-|[<-|[]]]; vm_compute; reflexivity.
Defined.

(** Pruning is lossless on the dumbbells (a tie, the first drives) and on
    a dumbbell against a sphere (the sphere drives). *)
Lemma bars_exhaustive :
  fst (overlap_of_spheres 1 (mk_vec3 9 0 0) bar bar_turned 0%N)
  = Finished (@all_pairs_scan lattice sphere_kind ball_box (mk_vec3 9 0 0)
                bar bar_turned)
  /\ fst (overlap_of_spheres 1 (mk_vec3 3 0 0) bar unit_sphere 0%N)
     = Finished (@all_pairs_scan lattice sphere_kind ball_box
                   (zneg (mk_vec3 3 0 0)) unit_sphere bar).
Proof.
  split.
  - apply (proj1 (@test_overlap_exhaustive lattice sphere_kind ball_box 1
                    (mk_vec3 9 0 0) bar bar_turned 0%N
                    dumbbell_shape dumbbell_shape
                    (LatticeFacts.bar_sound_hierarchy 1%N q_id)
                    (LatticeFacts.bar_sound_hierarchy 1%N q_half_z)
                    ltac:(simpl; lia) ltac:(simpl; lia)
                    ltac:(simpl; lia) ltac:(simpl; lia)
                    ltac:(apply Permutation_refl)
                    ltac:(apply Permutation_refl))).
    + reflexivity.
    + exact bars_boxes_bound.
  - apply (proj2 (@test_overlap_exhaustive lattice sphere_kind ball_box 1
                    (mk_vec3 3 0 0) bar unit_sphere 0%N
                    dumbbell_shape (BLeaf 0)
                    (LatticeFacts.bar_sound_hierarchy 1%N q_id)
                    sphere_sound_hierarchy
                    ltac:(simpl; lia) ltac:(simpl; lia)
                    ltac:(simpl; lia) ltac:(simpl; lia)
                    ltac:(apply Permutation_refl)
                    ltac:(apply Permutation_refl))).
    + reflexivity.
    + exact bar_sphere_boxes_bound.
Defined.

(** Two lone unit spheres, the second turned by half a turn: one call of
    the sphere test on the turned offset. *)
Lemma lone_spheres_reduce :
  fst (overlap_of_spheres 0 (mk_vec3 1 0 0) unit_sphere
         (lone_sphere 1 1 1%N q_half_z) 0%N)
  = Finished
      (ball_overlap
         (@box_in_frame_of lattice sphere_kind ball_box (mk_vec3 1 0 0)
            unit_sphere (lone_sphere 1 1 1%N q_half_z) 0)
         (mk_ball origin 1)
       && (true && fst (sphere_test (mk_vec3 (-1) 0 0)
                          (mk_shape q_id 1) (mk_shape q_id 1) 0%N))).
Proof.
  apply (@test_overlap_single_member lattice sphere_kind ball_box 0
           (mk_vec3 1 0 0) unit_sphere (lone_sphere 1 1 1%N q_half_z) 0%N).
  - apply LatticeFacts.lone_sphere_single_leaf.
  - apply LatticeFacts.lone_sphere_single_leaf.
  - reflexivity.
  - reflexivity.
  - reflexivity.
  - reflexivity.
  - reflexivity.
  - reflexivity.
Defined.

(** The broad phase on a sphere and a dumbbell, either way round. *)
Lemma broad_phase_either_way :
  @check_circumsphere_overlap lattice sphere_kind ball_box (mk_vec3 6 0 0)
    unit_sphere bar
  = @check_circumsphere_overlap lattice sphere_kind ball_box
      (zneg (mk_vec3 6 0 0)) bar unit_sphere.
Proof.
  apply (@check_circumsphere_overlap_exchange lattice sphere_kind ball_box
           (mk_vec3 6 0 0) unit_sphere bar); reflexivity.
Defined.

(** A box over the first leaf of the dumbbell only: what the narrow phase
    would answer at the second leaf does not matter. *)
Lemma loop_ignores_pruned_leaf :
  @query_loop lattice ball_box (tree (members bar)) (mk_ball origin 1)
    (fun child => Nat.eqb child 1) 5 0 [3%nat]
  = @query_loop lattice ball_box (tree (members bar)) (mk_ball origin 1)
      (fun child => negb (Nat.eqb child 0)) 5 0 [3%nat].
Proof.
  apply (@query_loop_tests_overlapping_leaves_only lattice ball_box
           (tree (members bar)) (mk_ball origin 1)
           (fun child => Nat.eqb child 1)
           (fun child => negb (Nat.eqb child 0))).
  intros [|[|[|child]]] Ho Hl; try reflexivity;
    vm_compute in Ho; vm_compute in Hl; discriminate.
Defined.

End LatticeMore.
